(** * Tap-click activation engine and accordion toggle: a shallow embedding

    Sources embedded here:
    - [core/src/utils/tap-click.ts]: the document-level pointer state machine
      that drives the "activated" class and the ripple effect;
    - [core/src/components/accordion/accordion.tsx]: the accordion element,
      which mirrors the value of its enclosing accordion group.

    The closure variables of [startTapClick] become the fields of a record
    [State]; the parts of the browser the code talks to (class lists, the
    timer queue, ripple hosts) are explicit components of that record.
    [Date.now()] is an argument [clock] of every handler. *)

From Stdlib Require Import ZArith Lia Bool.
From stdpp Require Import gmap strings list fin_maps.

Open Scope Z_scope.

Module TapClick.

(** Elements and timer handles are identified by natural numbers. *)
Abbreviation Elem := nat (only parsing).
Abbreviation TimerId := nat (only parsing).

(** ** Constants (tap-click.ts, lines 193-196) *)

Definition ACTIVATED : string := "activated".
Definition ADD_ACTIVATED_DEFERS : Z := 200.
Definition CLEAR_STATE_DEFERS : Z := 200.
Definition MOUSE_WAIT : Z := 2500.

Definition ION_ACTIVATABLE : string := "ion-activatable".
Definition ION_ACTIVATABLE_INSTANT : string := "ion-activatable-instant".

(** ** The document *)

(** An entry of a composed event path: an element, or a node that has no
    [classList] (the document, the window, a shadow root). *)
Inductive EventTarget :=
  | TElement (e : Elem)
  | TNode.

(** An [ion-ripple-effect] sub-element; [hasAddRipple] says whether the
    [addRipple] method is present on it. *)
Record RippleEffect := mkRipple {
  rippleId : nat;
  hasAddRipple : bool
}.

(** The static part of the page.  [shadowRoots !! el] is [None] when [el]
    has no shadow root and [Some q] when it has one, [q] being the result of
    [shadowRoot.querySelector('ion-ripple-effect')].  [lightRipples !! el] is
    the result of [el.querySelector('ion-ripple-effect')]. *)
Record Document := mkDocument {
  shadowRoots : gmap nat (option RippleEffect);
  lightRipples : gmap nat RippleEffect
}.

(** Class lists, one per element; an element without an entry has none. *)
Definition classesOf (cl : gmap nat (gset string)) (el : Elem) : gset string :=
  default ∅ (cl !! el).

Definition classList_contains (cl : gmap nat (gset string)) (el : Elem)
    (c : string) : bool :=
  bool_decide (c ∈ classesOf cl el).

Definition classList_add (cl : gmap nat (gset string)) (el : Elem)
    (c : string) : gmap nat (gset string) :=
  <[el := classesOf cl el ∪ {[c]}]> cl.

Definition classList_remove (cl : gmap nat (gset string)) (el : Elem)
    (c : string) : gmap nat (gset string) :=
  <[el := classesOf cl el ∖ {[c]}]> cl.

(** ** Events *)

(** What the handlers read from an event.  [composedPath] is [None] when the
    platform does not provide the method.  [ancestors] is the event target
    followed by its parents, innermost first: the chain [Element.closest]
    walks. *)
Record UIEvent := mkEvent {
  timeStamp : Z;
  coords : option (Z * Z);
  composedPath : option (list EventTarget);
  ancestors : list Elem;
  cancelable : bool
}.

(** Modelled from the spec: [now] of [utils/helpers], which is not part of
    the sources at hand; "timestamp(event) -> monotonic instant". *)
Definition now (ev : UIEvent) : Z := timeStamp ev.

(** Modelled from the spec: [pointerCoord] of [utils/helpers], which is not
    part of the sources at hand; "defaults to {0,0} if coordinates
    unavailable". *)
Definition pointerCoord (ev : UIEvent) : Z * Z :=
  default (0, 0) (coords ev).

(** ** Configuration *)

Record Config := mkConfig { entries : gmap string bool }.

(** Modelled from the spec: [Config.getBoolean], declared in [../interface],
    which is not part of the sources at hand; a flag that is absent takes
    the fallback given at the call. *)
Definition getBoolean (config : Config) (key : string) (fallback : bool) : bool :=
  default fallback (entries config !! key).

(** ** Activatable target resolver (tap-click.ts, lines 165-191) *)

(** The loop [for (let i = 0; i < path.length - 2; i++)], by index.  [fuel]
    bounds the number of iterations; [length path] is always enough. *)
Fixpoint scanPath (cl : gmap nat (gset string)) (path : list EventTarget)
    (i : nat) (fuel : nat) : option Elem :=
  match fuel with
  | O => None
  | S fuel' =>
      if Z.of_nat i <? Z.of_nat (length path) - 2 then
        match path !! i with
        | Some (TElement el) =>
            if classList_contains cl el ION_ACTIVATABLE then Some el
            else scanPath cl path (S i) fuel'
        | _ => scanPath cl path (S i) fuel'
        end
      else None
  end.

(** [ev.target.closest('.ion-activatable')]: the first element of the
    inclusive ancestor chain that carries the class. *)
Definition closest (cl : gmap nat (gset string)) (chain : list Elem)
    (c : string) : option Elem :=
  List.find (fun el => classList_contains cl el c) chain.

Definition getActivatableTarget (cl : gmap nat (gset string)) (ev : UIEvent)
    : option Elem :=
  match composedPath ev with
  | Some path => scanPath cl path 0 (length path)
  | None => closest cl (ancestors ev) ION_ACTIVATABLE
  end.

Definition isInstant (cl : gmap nat (gset string)) (el : Elem) : bool :=
  classList_contains cl el ION_ACTIVATABLE_INSTANT.

Definition getRippleEffect (doc : Document) (el : Elem) : option RippleEffect :=
  match shadowRoots doc !! el with
  | Some (Some ripple) => Some ripple
  | _ => lightRipples doc !! el
  end.

(** ** Timers, ripples and the state of the engine *)

(** The two closures the source passes to [setTimeout]: the delayed
    [addActivated(el, x, y)] of [setActivatedElement] and the delayed class
    removal of [removeActivated]. *)
Inductive Callback :=
  | AddActivatedCb (el : Elem) (x y : Z)
  | ClearStateCb (el : Elem).

(** A pending timer: its callback, the delay given to [setTimeout] and the
    clock reading at which it was set. *)
Record Timer := mkTimer {
  callback : Callback;
  delay : Z;
  setAt : Z
}.

(** One call [rippleEffect.addRipple(x, y)]; the promise it returns is
    identified with the call. *)
Record RippleCall := mkRippleCall {
  onRipple : RippleEffect;
  rippleX : Z;
  rippleY : Z
}.

(** The closure variables of [startTapClick] (lines 6-16), followed by the
    parts of the browser the handlers act on: class lists, the timer queue
    with the next free handle, and the trace of ripple calls (newest
    first). *)
Record State := mkState {
  lastTouch : Z;
  lastActivated : Z;
  cancelled : bool;
  scrolling : bool;
  activatableEle : option nat;
  activeRipple : option RippleCall;
  activeDefer : option nat;
  useRippleEffect : bool;
  clearDefers : gmap nat nat;
  doc : Document;
  classes : gmap nat (gset string);
  timers : gmap nat Timer;
  nextTimer : nat;
  ripplesAdded : list RippleCall;
  ripplesRemoved : list RippleCall
}.

Definition set_lastTouch (v : Z) (st : State) : State :=
  mkState v (lastActivated st) (cancelled st) (scrolling st)
    (activatableEle st) (activeRipple st) (activeDefer st)
    (useRippleEffect st) (clearDefers st) (doc st) (classes st) (timers st)
    (nextTimer st) (ripplesAdded st) (ripplesRemoved st).

Definition set_lastActivated (v : Z) (st : State) : State :=
  mkState (lastTouch st) v (cancelled st) (scrolling st)
    (activatableEle st) (activeRipple st) (activeDefer st)
    (useRippleEffect st) (clearDefers st) (doc st) (classes st) (timers st)
    (nextTimer st) (ripplesAdded st) (ripplesRemoved st).

Definition set_cancelled (v : bool) (st : State) : State :=
  mkState (lastTouch st) (lastActivated st) v (scrolling st)
    (activatableEle st) (activeRipple st) (activeDefer st)
    (useRippleEffect st) (clearDefers st) (doc st) (classes st) (timers st)
    (nextTimer st) (ripplesAdded st) (ripplesRemoved st).

Definition set_scrolling (v : bool) (st : State) : State :=
  mkState (lastTouch st) (lastActivated st) (cancelled st) v
    (activatableEle st) (activeRipple st) (activeDefer st)
    (useRippleEffect st) (clearDefers st) (doc st) (classes st) (timers st)
    (nextTimer st) (ripplesAdded st) (ripplesRemoved st).

Definition set_activatableEle (v : option nat) (st : State) : State :=
  mkState (lastTouch st) (lastActivated st) (cancelled st) (scrolling st)
    v (activeRipple st) (activeDefer st)
    (useRippleEffect st) (clearDefers st) (doc st) (classes st) (timers st)
    (nextTimer st) (ripplesAdded st) (ripplesRemoved st).

Definition set_activeDefer (v : option nat) (st : State) : State :=
  mkState (lastTouch st) (lastActivated st) (cancelled st) (scrolling st)
    (activatableEle st) (activeRipple st) v
    (useRippleEffect st) (clearDefers st) (doc st) (classes st) (timers st)
    (nextTimer st) (ripplesAdded st) (ripplesRemoved st).

Definition set_clearDefers (v : gmap nat nat) (st : State) : State :=
  mkState (lastTouch st) (lastActivated st) (cancelled st) (scrolling st)
    (activatableEle st) (activeRipple st) (activeDefer st)
    (useRippleEffect st) v (doc st) (classes st) (timers st)
    (nextTimer st) (ripplesAdded st) (ripplesRemoved st).

Definition set_classes (v : gmap nat (gset string)) (st : State) : State :=
  mkState (lastTouch st) (lastActivated st) (cancelled st) (scrolling st)
    (activatableEle st) (activeRipple st) (activeDefer st)
    (useRippleEffect st) (clearDefers st) (doc st) v (timers st)
    (nextTimer st) (ripplesAdded st) (ripplesRemoved st).

Definition set_timers (v : gmap nat Timer) (next : nat) (st : State) : State :=
  mkState (lastTouch st) (lastActivated st) (cancelled st) (scrolling st)
    (activatableEle st) (activeRipple st) (activeDefer st)
    (useRippleEffect st) (clearDefers st) (doc st) (classes st) v
    next (ripplesAdded st) (ripplesRemoved st).

(** [activeRipple = rippleEffect.addRipple(x, y)]: the call is made and its
    promise kept. *)
Definition call_addRipple (c : RippleCall) (st : State) : State :=
  mkState (lastTouch st) (lastActivated st) (cancelled st) (scrolling st)
    (activatableEle st) (Some c) (activeDefer st)
    (useRippleEffect st) (clearDefers st) (doc st) (classes st) (timers st)
    (nextTimer st) (c :: ripplesAdded st) (ripplesRemoved st).

(** [activeRipple.then(remove => remove())]. *)
Definition call_removeRipple (c : RippleCall) (st : State) : State :=
  mkState (lastTouch st) (lastActivated st) (cancelled st) (scrolling st)
    (activatableEle st) (activeRipple st) (activeDefer st)
    (useRippleEffect st) (clearDefers st) (doc st) (classes st) (timers st)
    (nextTimer st) (ripplesAdded st) (c :: ripplesRemoved st).

(** [setTimeout(cb, delay)] called when the clock reads [clock]: the handle
    returned is a fresh positive integer. *)
Definition setTimeout (cb : Callback) (d : Z) (clock : Z) (st : State)
    : TimerId * State :=
  (nextTimer st,
   set_timers (<[nextTimer st := mkTimer cb d clock]> (timers st))
     (S (nextTimer st)) st).

(** [clearTimeout(id)]; [clearTimeout(undefined)] does nothing. *)
Definition clearTimeout (id : option nat) (st : State) : State :=
  match id with
  | Some i => set_timers (delete i (timers st)) (nextTimer st) st
  | None => st
  end.

(** A handler either returns or throws [Error('internal error')]. *)
Inductive Result (A : Type) :=
  | Ok (a : A)
  | InternalError.
Arguments Ok {A} a.
Arguments InternalError {A}.

Definition bind {A B : Type} (r : Result A) (f : A -> Result B) : Result B :=
  match r with
  | Ok a => f a
  | InternalError => InternalError
  end.

Notation "'let*' x ':=' r 'in' k" := (bind r (fun x => k))
  (at level 10, x name, r at level 100, k at level 200).

(** What a listener did to the event it was given, with the state it left. *)
Record Outcome := mkOutcome {
  next : State;
  defaultPrevented : bool;
  propagationStopped : bool
}.

Definition unhandled (st : State) : Outcome := mkOutcome st false false.

(** ** The engine (tap-click.ts, lines 5-163) *)

(** The state [startTapClick(doc, config)] sets up, on a page whose class
    lists are [cl]. *)
Definition startTapClick (d : Document) (config : Config)
    (cl : gmap nat (gset string)) : State :=
  {| lastTouch := - MOUSE_WAIT * 10;
     lastActivated := 0;
     cancelled := false;
     scrolling := false;
     activatableEle := None;
     activeRipple := None;
     activeDefer := None;
     useRippleEffect :=
       getBoolean config "animated" true && getBoolean config "rippleEffect" true;
     clearDefers := ∅;
     doc := d;
     classes := cl;
     timers := ∅;
     nextTimer := 1;
     ripplesAdded := [];
     ripplesRemoved := [] |}.

Definition onBodyClick (st : State) : Outcome :=
  if cancelled st || scrolling st then mkOutcome st true true
  else unhandled st.

Definition addActivated (clock : Z) (el : Elem) (x y : Z) (st : State) : State :=
  let st := set_lastActivated clock st in
  let st := set_classes (classList_add (classes st) el ACTIVATED) st in
  let rippleEffect :=
    if useRippleEffect st then getRippleEffect (doc st) el else None in
  match rippleEffect with
  | Some ripple =>
      if hasAddRipple ripple then call_addRipple (mkRippleCall ripple x y) st
      else st
  | None => st
  end.

Definition removeActivated (clock : Z) (smooth : bool) (st : State) : State :=
  let st :=
    match activeRipple st with
    | Some c => call_removeRipple c st
    | None => st
    end in
  match activatableEle st with
  | None => st
  | Some active =>
      let time := CLEAR_STATE_DEFERS - clock + lastActivated st in
      if smooth && (0 <? time) && negb (isInstant (classes st) active) then
        let '(deferId, st) :=
          setTimeout (ClearStateCb active) CLEAR_STATE_DEFERS clock st in
        set_clearDefers (<[active := deferId]> (clearDefers st)) st
      else
        set_classes (classList_remove (classes st) active ACTIVATED) st
  end.

(** [el && el === activatableEle]. *)
Definition sameElement (el : option nat) (active : option nat) : bool :=
  match el, active with
  | Some e, Some a => Nat.eqb e a
  | _, _ => false
  end.

(** The block under [// deactivate selected] (lines 89-97). *)
Definition deactivateSelected (clock : Z) (x y : Z) (st : State) : Result State :=
  match activatableEle st with
  | Some active =>
      if bool_decide (is_Some (clearDefers st !! active)) then InternalError
      else
        let st :=
          if negb (classList_contains (classes st) active ACTIVATED)
          then addActivated clock active x y st
          else st in
        Ok (removeActivated clock true st)
  | None => Ok st
  end.

(** The block under [// activate] (lines 100-113), for a target [el]. *)
Definition activate (clock : Z) (el : Elem) (x y : Z) (st : State) : State :=
  let st :=
    match clearDefers st !! el with
    | Some deferId =>
        if negb (Nat.eqb deferId 0) then
          let st := clearTimeout (Some deferId) st in
          set_clearDefers (delete el (clearDefers st)) st
        else st
    | None => st
    end in
  let d := if isInstant (classes st) el then 0 else ADD_ACTIVATED_DEFERS in
  let st := set_classes (classList_remove (classes st) el ACTIVATED) st in
  let '(id, st) := setTimeout (AddActivatedCb el x y) d clock st in
  set_activeDefer (Some id) st.

Definition setActivatedElement (clock : Z) (el : option nat) (ev : UIEvent)
    (st : State) : Result State :=
  if sameElement el (activatableEle st) then Ok st
  else
    let st := clearTimeout (activeDefer st) st in
    let st := set_activeDefer None st in
    let '(x, y) := pointerCoord ev in
    let* st := deactivateSelected clock x y st in
    let st :=
      match el with
      | Some e => activate clock e x y st
      | None => st
      end in
    Ok (set_activatableEle el st).

Definition cancelActive (clock : Z) (st : State) : State :=
  let st := clearTimeout (activeDefer st) st in
  let st := set_activeDefer None st in
  let st :=
    match activatableEle st with
    | Some _ => set_activatableEle None (removeActivated clock false st)
    | None => st
    end in
  set_cancelled true st.

Definition pointerDown (clock : Z) (ev : UIEvent) (st : State) : Result State :=
  if bool_decide (is_Some (activatableEle st)) || scrolling st then Ok st
  else
    let st := set_cancelled false st in
    setActivatedElement clock (getActivatableTarget (classes st) ev) ev st.

Definition pointerUp (clock : Z) (ev : UIEvent) (st : State) : Result Outcome :=
  if scrolling st then Ok (unhandled st)
  else
    let* st := setActivatedElement clock None ev st in
    Ok (mkOutcome st (cancelled st && cancelable ev) false).

Definition onTouchStart (clock : Z) (ev : UIEvent) (st : State) : Result State :=
  let st := set_lastTouch (now ev) st in
  pointerDown clock ev st.

Definition onTouchEnd (clock : Z) (ev : UIEvent) (st : State) : Result Outcome :=
  let st := set_lastTouch (now ev) st in
  pointerUp clock ev st.

Definition onMouseDown (clock : Z) (ev : UIEvent) (st : State) : Result State :=
  let t := now ev - MOUSE_WAIT in
  if lastTouch st <? t then pointerDown clock ev st else Ok st.

Definition onMouseUp (clock : Z) (ev : UIEvent) (st : State) : Result Outcome :=
  let t := now ev - MOUSE_WAIT in
  if lastTouch st <? t then pointerUp clock ev st else Ok (unhandled st).

(** The body of a timer callback, run when its timer fires. *)
Definition runCallback (clock : Z) (cb : Callback) (st : State) : State :=
  match cb with
  | AddActivatedCb el x y =>
      set_activeDefer None (addActivated clock el x y st)
  | ClearStateCb active =>
      let st := set_classes (classList_remove (classes st) active ACTIVATED) st in
      set_clearDefers (delete active (clearDefers st)) st
  end.

(** What reaches the engine: the document events it listens to (lines
    147-162) and the expiry of one of its timers. *)
Inductive Input :=
  | Click (ev : UIEvent)
  | IonScrollStart
  | IonScrollEnd
  | IonGestureCaptured
  | TouchStart (ev : UIEvent)
  | TouchCancel (ev : UIEvent)
  | TouchEnd (ev : UIEvent)
  | MouseDown (ev : UIEvent)
  | MouseUp (ev : UIEvent)
  | TimerFires (id : TimerId).

Definition lift (r : Result State) : Result Outcome :=
  let* st := r in Ok (unhandled st).

(** One turn of the event loop when the clock reads [clock].  A timer fires
    once, and only when it is pending and its delay has passed; otherwise
    nothing happens. *)
Definition dispatch (clock : Z) (i : Input) (st : State) : Result Outcome :=
  match i with
  | Click _ => Ok (onBodyClick st)
  | IonScrollStart =>
      Ok (unhandled (cancelActive clock (set_scrolling true st)))
  | IonScrollEnd => Ok (unhandled (set_scrolling false st))
  | IonGestureCaptured => Ok (unhandled (cancelActive clock st))
  | TouchStart ev => lift (onTouchStart clock ev st)
  | TouchCancel ev => onTouchEnd clock ev st
  | TouchEnd ev => onTouchEnd clock ev st
  | MouseDown ev => lift (onMouseDown clock ev st)
  | MouseUp ev => onMouseUp clock ev st
  | TimerFires id =>
      match timers st !! id with
      | Some t =>
          if setAt t + delay t <=? clock then
            Ok (unhandled
                  (runCallback clock (callback t)
                     (set_timers (delete id (timers st)) (nextTimer st) st)))
          else Ok (unhandled st)
      | None => Ok (unhandled st)
      end
  end.

(** The inputs that reach [onTouchStart] or [onTouchEnd]. *)
Definition isTouch (i : Input) : bool :=
  match i with
  | TouchStart _ | TouchCancel _ | TouchEnd _ => true
  | _ => false
  end.

(** A run of the engine over a list of timed inputs. *)
Fixpoint run (inputs : list (Z * Input)) (st : State) : Result State :=
  match inputs with
  | [] => Ok st
  | (clock, i) :: rest =>
      let* o := dispatch clock i st in run rest (next o)
  end.

(** ** The resolver as the specification words it *)

(** The first entry of a list of path entries that is an element whose class
    list contains ['ion-activatable']. *)
Fixpoint firstActivatable (cl : gmap nat (gset string))
    (items : list EventTarget) : option Elem :=
  match items with
  | [] => None
  | TElement el :: rest =>
      if classList_contains cl el ION_ACTIVATABLE then Some el
      else firstActivatable cl rest
  | TNode :: rest => firstActivatable cl rest
  end.

(** Follows the specification (4.2): with a composed path, scan it from the
    innermost entry outward, leaving out its last two entries; without one,
    walk the plain ancestor chain of the target. *)
Definition resolveTarget (cl : gmap nat (gset string)) (ev : UIEvent)
    : option Elem :=
  match composedPath ev with
  | Some path => firstActivatable cl (take (length path - 2) path)
  | None =>
      List.find (fun el => bool_decide (ION_ACTIVATABLE ∈ classesOf cl el))
        (ancestors ev)
  end.

(** ** Predicates on states *)

(** [el] carries the "activated" marker. *)
Definition marked (st : State) (el : Elem) : Prop :=
  classList_contains (classes st) el ACTIVATED = true.

(** A timer that will add the marker to [el] is pending. *)
Definition pendingAdd (st : State) (el : Elem) : Prop :=
  ∃ id t x y, timers st !! id = Some t ∧ callback t = AddActivatedCb el x y.

(** A timer that will remove the marker from [el] is pending and registered
    in [clearDefers]. *)
Definition pendingClear (st : State) (el : Elem) : Prop :=
  ∃ id t, clearDefers st !! el = Some id ∧ timers st !! id = Some t ∧
          callback t = ClearStateCb el.

(** The timer queue [tm], the next free handle [nxt] and the [clearDefers]
    registry [cd] agree: handles are positive and below the next free one,
    every registered handle is that of a pending removal for its element,
    and every pending removal is registered. *)
Record RegistryOn (tm : gmap nat Timer) (nxt : nat) (cd : gmap nat nat)
    : Prop := mkRegistry {
  reg_next : (0 < nxt)%nat;
  reg_handles : ∀ id t, tm !! id = Some t → (0 < id < nxt)%nat;
  reg_timer : ∀ el id, cd !! el = Some id →
      ∃ t, tm !! id = Some t ∧ callback t = ClearStateCb el;
  reg_entry : ∀ id t el, tm !! id = Some t →
      callback t = ClearStateCb el → cd !! el = Some id
}.

(** No addition of the marker is pending in [tm]. *)
Definition NoAddOn (tm : gmap nat Timer) : Prop :=
  ∀ id t, tm !! id = Some t → ∃ el, callback t = ClearStateCb el.

(** The invariant of the engine, on the variables it is about: on top of
    [RegistryOn], a pending addition is the one [activeDefer] names and is
    for the element in the slot, [activeDefer] names a pending addition, and
    the element in the slot has no entry in [clearDefers]. *)
Record InvOn (tm : gmap nat Timer) (nxt : nat) (cd : gmap nat nat)
    (defer : option nat) (slot : option nat) : Prop := mkInv {
  inv_registry : RegistryOn tm nxt cd;
  inv_add : ∀ id t el x y, tm !! id = Some t →
      callback t = AddActivatedCb el x y → defer = Some id ∧ slot = Some el;
  inv_defer : ∀ id, defer = Some id →
      ∃ t el x y, tm !! id = Some t ∧ callback t = AddActivatedCb el x y;
  inv_slot : ∀ el, slot = Some el → cd !! el = None
}.

Definition Inv (st : State) : Prop :=
  InvOn (timers st) (nextTimer st) (clearDefers st) (activeDefer st)
    (activatableEle st).

(** Every element that carries the marker in [cl] is the one in the slot or
    has a registered removal. *)
Definition MarkedOn (cl : gmap nat (gset string)) (cd : gmap nat nat)
    (slot : option nat) : Prop :=
  ∀ el, classList_contains cl el ACTIVATED = true →
    slot = Some el ∨ is_Some (cd !! el).

Definition MarkedOwned (st : State) : Prop :=
  MarkedOn (classes st) (clearDefers st) (activatableEle st).

(** What no handler writes: the ripple switch and the document; and, with
    the switch off, no call of [addRipple] is made from [st] to [st']. *)
Definition sameConfig (st st' : State) : Prop :=
  useRippleEffect st' = useRippleEffect st ∧ doc st' = doc st ∧
  (useRippleEffect st = false → ripplesAdded st' = ripplesAdded st).

(** The variables that only the listeners themselves write: neither
    [setActivatedElement] nor the functions it calls touch them. *)
Definition sameSession (st st' : State) : Prop :=
  lastTouch st' = lastTouch st ∧ cancelled st' = cancelled st ∧
  scrolling st' = scrolling st ∧ sameConfig st st'.

(** The exclusivity property of section 8 of the specification, read
    literally: at most one element carries the marker or awaits it. *)
Definition exclusiveMarker (st : State) : Prop :=
  ∀ e1 e2, marked st e1 ∨ pendingAdd st e1 →
           marked st e2 ∨ pendingAdd st e2 → e1 = e2.

(** The exclusivity property as section 8 states it, over all runs from a
    page on which no element carries the marker yet. *)
Definition claimedExclusivity : Prop :=
  ∀ d config cl inputs st,
    (∀ el, classList_contains cl el ACTIVATED = false) →
    run inputs (startTapClick d config cl) = Ok st →
    exclusiveMarker st.

(** Section 8 on a second pointer-down: after a pointer-down on [a] and,
    before the activation delay of [a] has passed, a pointer-down on another
    element [b], no addition is pending for [a] any more and one is pending
    for [b]. *)
Definition claimedRetarget : Prop :=
  ∀ d config cl clockA clockB evA evB a b st1 st2,
    getActivatableTarget cl evA = Some a →
    getActivatableTarget cl evB = Some b →
    a ≠ b →
    clockA <= clockB < clockA + ADD_ACTIVATED_DEFERS →
    pointerDown clockA evA (startTapClick d config cl) = Ok st1 →
    pointerDown clockB evB st1 = Ok st2 →
    ¬ pendingAdd st2 a ∧ pendingAdd st2 b.

(** Section 4.3 on [removeActivated]: a smoothed removal is scheduled after
    what remains of the minimum visible duration. *)
Definition claimedRemainingDelay : Prop :=
  ∀ clock st active,
    activatableEle st = Some active →
    0 <= clock - lastActivated st < CLEAR_STATE_DEFERS →
    isInstant (classes st) active = false →
    ∃ id t, clearDefers (removeActivated clock true st) !! active = Some id ∧
            timers (removeActivated clock true st) !! id = Some t ∧
            delay t = CLEAR_STATE_DEFERS - (clock - lastActivated st).

(** ** A sample page

    Three activatable elements: 1 hosts a ripple in its shadow root, 2 hosts
    one among its children, 3 is instant and hosts none. *)

Definition sampleClasses : gmap nat (gset string) :=
  {[ 1%nat := {[ION_ACTIVATABLE]};
     2%nat := {[ION_ACTIVATABLE]};
     3%nat := {[ION_ACTIVATABLE; ION_ACTIVATABLE_INSTANT]} ]}.

Definition sampleDocument : Document :=
  {| shadowRoots := {[ 1%nat := Some (mkRipple 10 true) ]};
     lightRipples := {[ 2%nat := mkRipple 20 true ]} |}.

(** An event on element [e] stamped [t]: the composed path runs from [e]
    through the body (element 0) to the document and the window. *)
Definition eventOn (e : Elem) (t : Z) : UIEvent :=
  {| timeStamp := t;
     coords := Some (5, 7);
     composedPath := Some [TElement e; TElement 0; TNode; TNode];
     ancestors := [e; 0%nat];
     cancelable := true |}.

Definition sampleStart : State :=
  startTapClick sampleDocument (mkConfig ∅) sampleClasses.

(** The state a run ends in, or [st] itself when the run throws. *)
Definition stateAfter (inputs : list (Z * Input)) (st : State) : State :=
  match run inputs st with
  | Ok st' => st'
  | InternalError => st
  end.

(** Element 1 is pressed when the clock reads 1000 and its marker is applied
    200 later, when the timer of the press fires. *)
Definition samplePressed : State :=
  stateAfter [(1000, TouchStart (eventOn 1 0)); (1200, TimerFires 1)] sampleStart.

(** Element 1 is pressed when the clock reads 0, nothing else has happened. *)
Definition sampleDown : State :=
  match pointerDown 0 (eventOn 1 0) sampleStart with
  | Ok st => st
  | InternalError => sampleStart
  end.

(** ** Further predicates and sample states *)

(** The state [clearTimeout(activeDefer); activeDefer = undefined] leaves,
    the first two statements of [setActivatedElement] and [cancelActive]. *)
Definition withoutActiveDefer (st : State) : State :=
  set_activeDefer None (clearTimeout (activeDefer st) st).

(** What [clearTimeout(activeDefer)] leaves of the timer queue. *)
Definition otherTimers (st : State) : gmap nat Timer :=
  match activeDefer st with
  | Some id => delete id (timers st)
  | None => timers st
  end.

Definition isScrollEnd (i : Input) : bool :=
  match i with
  | IonScrollEnd => true
  | _ => false
  end.

(** The engine while the page scrolls: the flag is set, the slot is empty
    and no addition of the marker is pending. *)
Definition Locked (st : State) : Prop :=
  scrolling st = true ∧ activatableEle st = None ∧ activeDefer st = None ∧
  NoAddOn (timers st).

(** [cl'] differs from [cl] in the "activated" class at most. *)
Definition otherClassesKept (cl cl' : gmap nat (gset string)) : Prop :=
  ∀ el c, c ≠ ACTIVATED →
    classList_contains cl' el c = classList_contains cl el c.

(** The ripple kept in [activeRipple] is the last one started, if any was,
    and every removal asked for is that of a ripple that was started. *)
Definition RippleLog (st : State) : Prop :=
  activeRipple st = head (ripplesAdded st) ∧
  ∀ c, c ∈ ripplesRemoved st → c ∈ ripplesAdded st.

(** From [st] to [st'] no class other than "activated" was written and the
    ripple log stayed in order. *)
Definition Kept (st st' : State) : Prop :=
  otherClassesKept (classes st) (classes st') ∧ (RippleLog st → RippleLog st').

(** Element 3, which is instant, is pressed when the clock reads 0. *)
Definition sampleInstantDown : State :=
  stateAfter [(0, TouchStart (eventOn 3 0))] sampleStart.

(** Element 1 is pressed at 0 and released at 50; its removal is pending. *)
Definition sampleReleased : State :=
  stateAfter [(0, TouchStart (eventOn 1 0)); (50, TouchEnd (eventOn 1 50))]
    sampleStart.

End TapClick.

(** * The accordion (accordion.tsx) *)

Module Accordion.

(** [accordionGroup.value]: a string, an array of strings, [null] or
    [undefined]. *)
Inductive GroupValue :=
  | Undefined
  | Null
  | Single (s : string)
  | Many (l : list string).

(** The host element, as far as the component looks at it: the result of
    [el.closest('ion-accordion-group')]. *)
Record HostElement := mkHost { closestGroup : option nat }.

(** The fields of the component the methods read or write. *)
Record Accordion := mkAccordion {
  accordionGroupEl : option nat;
  el : option HostElement;
  expanded : bool;
  value : option string;
  disabled : bool;
  readonly : bool
}.

(** Calls made on the group element. *)
Inductive Call :=
  | AddEventListener (group : nat) (name : string)
  | RemoveEventListener (group : nat) (name : string)
  | RequestAccordionToggle (group : nat) (v : option string) (expand : bool).

Definition set_expanded (b : bool) (a : Accordion) : Accordion :=
  mkAccordion (accordionGroupEl a) (el a) b (value a) (disabled a) (readonly a).

Definition set_accordionGroupEl (g : option nat) (a : Accordion) : Accordion :=
  mkAccordion g (el a) (expanded a) (value a) (disabled a) (readonly a).

(** [value.includes(accordionValue)]. *)
Definition includes (l : list string) (v : string) : bool :=
  existsb (String.eqb v) l.

(** [value === accordionValue], for an [accordionValue] that is a string and
    a [value] that is not an array. *)
Definition strictEquals (gv : GroupValue) (v : string) : bool :=
  match gv with
  | Single s => String.eqb s v
  | _ => false
  end.

(** [valueOf g] is the current [value] of the group element [g]. *)
Definition updateState (valueOf : nat -> GroupValue) (a : Accordion) : Accordion :=
  match value a, accordionGroupEl a with
  | Some accordionValue, Some accordionGroup =>
      let v := valueOf accordionGroup in
      set_expanded
        (match v with
         | Many l => includes l accordionValue
         | _ => strictEquals v accordionValue
         end) a
  | _, _ => a
  end.

Definition connectedCallback (valueOf : nat -> GroupValue) (a : Accordion)
    : Accordion * list Call :=
  let accordionGroupEl :=
    match el a with
    | Some host => closestGroup host
    | None => None
    end in
  let a := set_accordionGroupEl accordionGroupEl a in
  match accordionGroupEl with
  | Some g => (updateState valueOf a, [AddEventListener g "ionChange"])
  | None => (a, [])
  end.

Definition disconnectedCallback (a : Accordion) : Accordion * list Call :=
  match accordionGroupEl a with
  | Some g => (a, [RemoveEventListener g "ionChange"])
  | None => (a, [])
  end.

Definition toggleExpanded (a : Accordion) : Accordion * list Call :=
  match accordionGroupEl a with
  | Some g => (a, [RequestAccordionToggle g (value a) (negb (expanded a))])
  | None => (a, [])
  end.

(** What happens to the component: it is connected or disconnected, the
    [ionChange] listener it registered on its group runs, or its header
    button is clicked. *)
Inductive Op :=
  | Connected
  | Disconnected
  | GroupIonChange
  | HeaderClick.

Definition step (valueOf : nat -> GroupValue) (op : Op) (a : Accordion)
    : Accordion * list Call :=
  match op with
  | Connected => connectedCallback valueOf a
  | Disconnected => disconnectedCallback a
  | GroupIonChange => (updateState valueOf a, [])
  | HeaderClick => toggleExpanded a
  end.

(** The spec's reading of [updateState]: whether the group's value, a single
    value or a collection, matches or contains the accordion's value. *)
Definition matchesOrContains (gv : GroupValue) (v : string) : Prop :=
  match gv with
  | Single s => s = v
  | Many l => In v l
  | _ => False
  end.

(** The last clause of the spec's account of toggling, read literally: the
    [expanded] field changes only when the group's [ionChange] listener
    runs. *)
Definition claimedOnlyIonChange : Prop :=
  ∀ valueOf op a,
    expanded (fst (step valueOf op a)) ≠ expanded a → op = GroupIonChange.

(** An accordion with value "a", collapsed, not yet connected, that sits
    inside group 7; and one connected to that group. *)
Definition sampleAccordion : Accordion :=
  {| accordionGroupEl := None;
     el := Some (mkHost (Some 7%nat));
     expanded := false;
     value := Some "a"%string;
     disabled := false;
     readonly := false |}.

Definition sampleConnected : Accordion :=
  set_accordionGroupEl (Some 7%nat) sampleAccordion.

End Accordion.

(** * Properties of the tap-click engine *)

Module TapClickFacts.
Import TapClick.

(** ** Class lists *)

Lemma classesOf_add cl el c el' :
  classesOf (classList_add cl el c) el' =
  if decide (el = el') then classesOf cl el ∪ {[c]} else classesOf cl el'.
Proof.
  unfold classList_add, classesOf at 1.
  rewrite lookup_insert. destruct (decide (el = el')) as [->|]; reflexivity.
Qed.

Lemma classesOf_remove cl el c el' :
  classesOf (classList_remove cl el c) el' =
  if decide (el = el') then classesOf cl el ∖ {[c]} else classesOf cl el'.
Proof.
  unfold classList_remove, classesOf at 1.
  rewrite lookup_insert. destruct (decide (el = el')) as [->|]; reflexivity.
Qed.

Lemma contains_add_same cl el c :
  classList_contains (classList_add cl el c) el c = true.
Proof.
  unfold classList_contains. rewrite classesOf_add, decide_True by done.
  apply bool_decide_eq_true. set_solver.
Qed.

Lemma contains_add_inv cl el c el' c' :
  classList_contains (classList_add cl el c) el' c' = true →
  (el' = el ∧ c' = c) ∨ classList_contains cl el' c' = true.
Proof.
  unfold classList_contains. rewrite !bool_decide_eq_true, classesOf_add.
  destruct (decide (el = el')) as [->|]; set_solver.
Qed.

Lemma contains_remove_same cl el c :
  classList_contains (classList_remove cl el c) el c = false.
Proof.
  unfold classList_contains. rewrite classesOf_remove, decide_True by done.
  apply bool_decide_eq_false. set_solver.
Qed.

Lemma contains_remove_inv cl el c el' c' :
  classList_contains (classList_remove cl el c) el' c' = true →
  classList_contains cl el' c' = true ∧ ¬ (el' = el ∧ c' = c).
Proof.
  unfold classList_contains. rewrite !bool_decide_eq_true, classesOf_remove.
  destruct (decide (el = el')) as [->|]; set_solver.
Qed.

(** ** The resolver *)

Lemma scanPath_firstActivatable cl path fuel : ∀ i : nat,
  (length path ≤ i + fuel)%nat →
  scanPath cl path i fuel = firstActivatable cl (drop i (take (length path - 2) path)).
Proof.
  induction fuel as [|fuel IH]; intros i Hlen; simpl.
  - rewrite drop_ge; [done|]. rewrite length_take. lia.
  - destruct (Z.ltb_spec (Z.of_nat i) (Z.of_nat (length path) - 2)) as [Hlt|Hge].
    + assert (Hi : (i < length path - 2)%nat) by lia.
      destruct (lookup_lt_is_Some_2 path i) as [t Ht]; [lia|].
      rewrite (drop_S _ t i) by (rewrite lookup_take_lt; done).
      rewrite Ht. simpl. destruct t as [el|].
      * destruct (classList_contains cl el ION_ACTIVATABLE); [done|].
        apply IH. lia.
      * apply IH. lia.
    + rewrite drop_ge; [done|]. rewrite length_take. lia.
Qed.

Lemma firstActivatable_Some cl items el :
  firstActivatable cl items = Some el →
  ∃ i : nat, items !! i = Some (TElement el) ∧
    classList_contains cl el ION_ACTIVATABLE = true ∧
    ∀ (j : nat) e, (j < i)%nat → items !! j = Some (TElement e) →
                   classList_contains cl e ION_ACTIVATABLE = false.
Proof.
  induction items as [|t items IH]; simpl; [done|].
  destruct t as [e0|].
  - destruct (classList_contains cl e0 ION_ACTIVATABLE) eqn:Hc.
    + intros [= ->]. exists 0%nat. split; [done|]. split; [done|]. intros; lia.
    + intros H. destruct (IH H) as (i & Hi & Hel & Hbefore).
      exists (S i). split; [done|]. split; [done|].
      intros [|j] e Hj He; simpl in He; [congruence|].
      apply (Hbefore j); [lia|done].
  - intros H. destruct (IH H) as (i & Hi & Hel & Hbefore).
    exists (S i). split; [done|]. split; [done|].
    intros [|j] e Hj He; simpl in He; [congruence|].
    apply (Hbefore j); [lia|done].
Qed.

Lemma firstActivatable_None cl items :
  firstActivatable cl items = None →
  ∀ (i : nat) e, items !! i = Some (TElement e) →
                 classList_contains cl e ION_ACTIVATABLE = false.
Proof.
  induction items as [|t items IH]; simpl; intros H i e Hi; [done|].
  destruct t as [e0|].
  - destruct (classList_contains cl e0 ION_ACTIVATABLE) eqn:Hc; [done|].
    destruct i as [|i]; simpl in Hi; [congruence|]. by apply (IH H i).
  - destruct i as [|i]; simpl in Hi; [congruence|]. by apply (IH H i).
Qed.

(** C7. The target resolver, as coded with an index loop, computes what the
    specification describes: with a composed path, the first element carrying
    ['ion-activatable'] among the entries of the path, innermost first, the
    last two entries left out; without a composed path, the first such
    element on the plain ancestor chain of the target; and none when no
    element qualifies. *)
Theorem getActivatableTarget_resolves cl ev :
  getActivatableTarget cl ev = resolveTarget cl ev ∧
  match getActivatableTarget cl ev, composedPath ev with
  | Some el, Some path =>
      ∃ i : nat, (i + 2 < length path)%nat ∧ path !! i = Some (TElement el) ∧
        classList_contains cl el ION_ACTIVATABLE = true ∧
        ∀ (j : nat) e, (j < i)%nat → path !! j = Some (TElement e) →
                       classList_contains cl e ION_ACTIVATABLE = false
  | None, Some path =>
      ∀ (i : nat) e, (i + 2 < length path)%nat → path !! i = Some (TElement e) →
                     classList_contains cl e ION_ACTIVATABLE = false
  | Some el, None =>
      el ∈ ancestors ev ∧ classList_contains cl el ION_ACTIVATABLE = true
  | None, None =>
      ∀ e, e ∈ ancestors ev → classList_contains cl e ION_ACTIVATABLE = false
  end.
Proof.
  unfold getActivatableTarget, resolveTarget, closest.
  destruct (composedPath ev) as [path|].
  - rewrite (scanPath_firstActivatable cl path (length path) 0) by lia.
    rewrite drop_0. split; [done|].
    destruct (firstActivatable cl (take (length path - 2) path)) as [el|] eqn:Hf.
    + apply firstActivatable_Some in Hf as (i & Hi & Hel & Hbefore).
      apply lookup_take_Some in Hi as [Hi Hlt].
      exists i. split; [lia|]. split; [done|]. split; [done|].
      intros j e Hj He. apply (Hbefore j); [done|].
      apply lookup_take_Some. split; [done|lia].
    + intros i e Hi He. apply (firstActivatable_None _ _ Hf i).
      apply lookup_take_Some. split; [done|lia].
  - split; [done|].
    destruct (List.find _ (ancestors ev)) as [el|] eqn:Hf.
    + apply find_some in Hf as [Hin Hc]. split; [|done].
      by apply list_elem_of_In.
    + intros e He. apply list_elem_of_In in He.
      pose proof (find_none _ _ Hf e He) as Hn. simpl in Hn.
      by destruct (classList_contains cl e ION_ACTIVATABLE).
Qed.

(** ** Footprints of the functions of the engine *)

Lemma sameConfig_refl st : sameConfig st st.
Proof. by repeat split. Qed.

Lemma sameConfig_trans st1 st2 st3 :
  sameConfig st1 st2 → sameConfig st2 st3 → sameConfig st1 st3.
Proof.
  intros (Hu1 & Hd1 & Hr1) (Hu2 & Hd2 & Hr2).
  split; [congruence|]. split; [congruence|].
  intros Hoff. rewrite Hr2, Hr1; congruence.
Qed.

Lemma sameSession_refl st : sameSession st st.
Proof. by repeat split. Qed.

Lemma sameSession_trans st1 st2 st3 :
  sameSession st1 st2 → sameSession st2 st3 → sameSession st1 st3.
Proof.
  intros (?&?&?&Hc1) (?&?&?&Hc2).
  split; [congruence|]. split; [congruence|]. split; [congruence|].
  apply (sameConfig_trans _ _ _ Hc1 Hc2).
Qed.

Lemma addActivated_fields clock el x y st :
  let st' := addActivated clock el x y st in
  sameSession st st' ∧ timers st' = timers st ∧ nextTimer st' = nextTimer st ∧
  clearDefers st' = clearDefers st ∧ activatableEle st' = activatableEle st ∧
  activeDefer st' = activeDefer st ∧ lastActivated st' = clock ∧
  classes st' = classList_add (classes st) el ACTIVATED.
Proof.
  cbv zeta. unfold addActivated, sameSession, sameConfig; simpl.
  destruct (useRippleEffect st) eqn:Hu;
    [destruct (getRippleEffect (doc st) el) as [r|];
      [destruct (hasAddRipple r)|]|]; simpl; rewrite ?Hu; by repeat split.
Qed.

Lemma removeActivated_smooth clock st active :
  activatableEle st = Some active →
  0 < CLEAR_STATE_DEFERS - clock + lastActivated st →
  isInstant (classes st) active = false →
  let st' := removeActivated clock true st in
  sameSession st st' ∧
  timers st' =
    <[nextTimer st := mkTimer (ClearStateCb active) CLEAR_STATE_DEFERS clock]>
      (timers st) ∧
  nextTimer st' = S (nextTimer st) ∧
  clearDefers st' = <[active := nextTimer st]> (clearDefers st) ∧
  activatableEle st' = activatableEle st ∧ activeDefer st' = activeDefer st ∧
  classes st' = classes st.
Proof.
  intros Hact Htime Hinst. cbv zeta. unfold removeActivated, sameSession, sameConfig.
  destruct (activeRipple st); simpl; rewrite Hact, Hinst; simpl;
    (destruct (Z.ltb_spec 0 (CLEAR_STATE_DEFERS - clock + lastActivated st));
      [|lia]); simpl; by repeat split.
Qed.

Lemma removeActivated_immediate clock smooth st active :
  activatableEle st = Some active →
  smooth && (0 <? CLEAR_STATE_DEFERS - clock + lastActivated st)
    && negb (isInstant (classes st) active) = false →
  let st' := removeActivated clock smooth st in
  sameSession st st' ∧ timers st' = timers st ∧ nextTimer st' = nextTimer st ∧
  clearDefers st' = clearDefers st ∧ activatableEle st' = activatableEle st ∧
  activeDefer st' = activeDefer st ∧
  classes st' = classList_remove (classes st) active ACTIVATED.
Proof.
  intros Hact Hcond. cbv zeta. unfold removeActivated, sameSession, sameConfig.
  destruct (activeRipple st); simpl; rewrite Hact, Hcond; simpl;
    by repeat split.
Qed.

(** ** The registry under the operations on timers *)

Lemma RegistryOn_register tm nxt cd active d c :
  RegistryOn tm nxt cd → cd !! active = None →
  RegistryOn (<[nxt := mkTimer (ClearStateCb active) d c]> tm) (S nxt)
    (<[active := nxt]> cd).
Proof.
  intros [Hn Hh Ht He] Hfree. split.
  - lia.
  - intros id t. rewrite lookup_insert. case_decide; [intros _; lia|].
    intros Hl. apply Hh in Hl. lia.
  - intros el id. rewrite lookup_insert. case_decide as Hel.
    + intros [= <-]. subst el. eexists. by rewrite lookup_insert_eq.
    + intros Hl. destruct (Ht _ _ Hl) as (t & Htm & Hcb). exists t.
      split; [|done]. rewrite lookup_insert_ne; [done|].
      apply Hh in Htm. lia.
  - intros id t el. rewrite lookup_insert. case_decide as Hid.
    + intros [= <-]. simpl. intros [= <-]. subst id. by rewrite lookup_insert_eq.
    + intros Htm Hcb. pose proof (He _ _ _ Htm Hcb) as Hcd.
      rewrite lookup_insert_ne; [done|]. congruence.
Qed.

Lemma RegistryOn_schedule tm nxt cd el x y d c :
  RegistryOn tm nxt cd →
  RegistryOn (<[nxt := mkTimer (AddActivatedCb el x y) d c]> tm) (S nxt) cd.
Proof.
  intros [Hn Hh Ht He]. split.
  - lia.
  - intros id t. rewrite lookup_insert. case_decide; [intros _; lia|].
    intros Hl. apply Hh in Hl. lia.
  - intros e id Hl. destruct (Ht _ _ Hl) as (t & Htm & Hcb). exists t.
    split; [|done]. rewrite lookup_insert_ne; [done|]. apply Hh in Htm. lia.
  - intros id t e. rewrite lookup_insert. case_decide.
    + intros [= <-]. simpl. done.
    + apply He.
Qed.

Lemma RegistryOn_unschedule tm nxt cd id :
  RegistryOn tm nxt cd → (∀ el, cd !! el ≠ Some id) →
  RegistryOn (delete id tm) nxt cd.
Proof.
  intros [Hn Hh Ht He] Hfree. split.
  - done.
  - intros i t Hl. apply lookup_delete_Some in Hl as [_ Hl]. eauto.
  - intros el i Hl. destruct (Ht _ _ Hl) as (t & Htm & Hcb). exists t.
    split; [|done]. rewrite lookup_delete_ne; [done|].
    intros ->. by apply (Hfree el).
  - intros i t el Hl. apply lookup_delete_Some in Hl as [_ Hl]. eauto.
Qed.

Lemma RegistryOn_unregister tm nxt cd el id :
  RegistryOn tm nxt cd → cd !! el = Some id →
  RegistryOn (delete id tm) nxt (delete el cd).
Proof.
  intros [Hn Hh Ht He] Hreg. split.
  - done.
  - intros i t Hl. apply lookup_delete_Some in Hl as [_ Hl]. eauto.
  - intros e i Hl. apply lookup_delete_Some in Hl as [Hne Hl].
    destruct (Ht _ _ Hl) as (t & Htm & Hcb). exists t. split; [|done].
    rewrite lookup_delete_ne; [done|]. intros ->.
    destruct (Ht _ _ Hreg) as (t' & Htm' & Hcb'). congruence.
  - intros i t e Hl Hcb. apply lookup_delete_Some in Hl as [Hne Hl].
    pose proof (He _ _ _ Hl Hcb) as Hcd.
    rewrite lookup_delete_ne; [done|]. intros ->. congruence.
Qed.

(** ** The invariant through [setActivatedElement] *)

Lemma NoAddOn_delete tm id : NoAddOn tm → NoAddOn (delete id tm).
Proof.
  intros H i t Hl. apply lookup_delete_Some in Hl as [_ Hl]. eauto.
Qed.

Lemma clearTimeout_fields id st :
  let st' := clearTimeout id st in
  sameSession st st' ∧ nextTimer st' = nextTimer st ∧
  clearDefers st' = clearDefers st ∧ activatableEle st' = activatableEle st ∧
  activeDefer st' = activeDefer st ∧ classes st' = classes st ∧
  lastActivated st' = lastActivated st ∧
  timers st' = match id with
               | Some i => delete i (timers st)
               | None => timers st
               end.
Proof. destruct id; simpl; by repeat split. Qed.

(** After [clearTimeout(activeDefer); activeDefer = undefined] no addition is
    pending. *)
Lemma clear_activeDefer st :
  Inv st →
  let st1 := set_activeDefer None (clearTimeout (activeDefer st) st) in
  RegistryOn (timers st1) (nextTimer st1) (clearDefers st1) ∧
  NoAddOn (timers st1).
Proof.
  intros [Hreg Hadd Hdefer Hslot]. cbv zeta.
  destruct (activeDefer st) as [id|] eqn:Hid; simpl.
  - split.
    + apply RegistryOn_unschedule; [done|]. intros el Hel.
      destruct (reg_timer _ _ _ Hreg _ _ Hel) as (t & Ht & Hcb).
      destruct (Hdefer id eq_refl) as (t' & e & x & y & Ht' & Hcb').
      congruence.
    + intros i t Hl. apply lookup_delete_Some in Hl as [Hne Hl].
      destruct (callback t) as [e x y|e] eqn:Hcb; [|eauto].
      destruct (Hadd _ _ _ _ _ Hl Hcb) as [[= ->] _]. done.
  - split; [done|]. intros i t Hl.
    destruct (callback t) as [e x y|e] eqn:Hcb; [|eauto].
    by destruct (Hadd _ _ _ _ _ Hl Hcb) as [? _].
Qed.

Lemma deactivateSelected_ok clock x y st :
  RegistryOn (timers st) (nextTimer st) (clearDefers st) →
  NoAddOn (timers st) →
  (∀ el, activatableEle st = Some el → clearDefers st !! el = None) →
  ∃ st', deactivateSelected clock x y st = Ok st' ∧
    RegistryOn (timers st') (nextTimer st') (clearDefers st') ∧
    NoAddOn (timers st') ∧
    activeDefer st' = activeDefer st ∧
    activatableEle st' = activatableEle st ∧
    sameSession st st' ∧
    (MarkedOwned st → ∀ el,
       classList_contains (classes st') el ACTIVATED = true →
       is_Some (clearDefers st' !! el)).
Proof.
  intros Hreg Hno Hfree. unfold deactivateSelected.
  destruct (activatableEle st) as [active|] eqn:Hact.
  - rewrite bool_decide_eq_false_2
      by (rewrite (Hfree active eq_refl); by intros [? ?]).
    set (st1 := if negb (classList_contains (classes st) active ACTIVATED)
                then addActivated clock active x y st else st).
    assert (H1 : sameSession st st1 ∧ timers st1 = timers st ∧
                 nextTimer st1 = nextTimer st ∧
                 clearDefers st1 = clearDefers st ∧
                 activatableEle st1 = activatableEle st ∧
                 activeDefer st1 = activeDefer st ∧
                 ∀ el, classList_contains (classes st1) el ACTIVATED = true →
                       el = active ∨
                       classList_contains (classes st) el ACTIVATED = true).
    { subst st1. destruct (classList_contains (classes st) active ACTIVATED).
      - simpl. repeat split; try done. auto.
      - simpl. destruct (addActivated_fields clock active x y st)
          as (Hs & Ht & Hn & Hc & Ha & Hd & _ & Hcl).
        refine (conj Hs (conj Ht (conj Hn (conj Hc (conj Ha (conj Hd _)))))).
        intros el. rewrite Hcl.
        intros [[-> _]|H]%contains_add_inv; auto. }
    destruct H1 as (Hs1 & Ht1 & Hn1 & Hc1 & Ha1 & Hd1 & Hm1).
    rewrite Hact in Ha1.
    eexists. split; [reflexivity|].
    destruct ((0 <? CLEAR_STATE_DEFERS - clock + lastActivated st1)
              && negb (isInstant (classes st1) active)) eqn:Hcond.
    + apply andb_prop in Hcond as [Htime Hinst].
      apply Z.ltb_lt in Htime. apply negb_true_iff in Hinst.
      destruct (removeActivated_smooth clock st1 active Ha1 Htime Hinst)
        as (Hs & Ht & Hn & Hc & Ha & Hd & Hcl).
      rewrite Ht, Hn, Hc, Ha, Hd, Hcl, Ht1, Hn1, Hc1, Ha1, Hd1.
      split; [by apply RegistryOn_register; [|apply Hfree]|].
      split.
      { intros i t. rewrite lookup_insert. case_decide.
        - intros [= <-]. simpl. eauto.
        - apply Hno. }
      split; [done|]. split; [done|].
      split; [apply (sameSession_trans _ _ _ Hs1 Hs)|].
      intros Hown el Hel. apply lookup_insert_is_Some.
      destruct (decide (active = el)) as [->|Hne]; [by left|right].
      split; [done|]. destruct (Hm1 el Hel) as [->|Hold]; [done|].
      destruct (Hown el Hold) as [Heq|Hsome]; [|done].
      rewrite Hact in Heq. congruence.
    + destruct (removeActivated_immediate clock true st1 active Ha1 Hcond)
        as (Hs & Ht & Hn & Hc & Ha & Hd & Hcl).
      rewrite Ht, Hn, Hc, Ha, Hd, Hcl, Ht1, Hn1, Hc1, Ha1, Hd1.
      split; [done|]. split; [done|]. split; [done|]. split; [done|].
      split; [apply (sameSession_trans _ _ _ Hs1 Hs)|].
      intros Hown el [Hel Hne]%contains_remove_inv.
      destruct (Hm1 el Hel) as [->|Hold]; [by destruct Hne|].
      destruct (Hown el Hold) as [Heq|Hsome]; [|done].
      rewrite Hact in Heq. injection Heq as <-. by destruct Hne.
  - eexists. split; [reflexivity|].
    refine (conj Hreg (conj Hno (conj eq_refl (conj Hact
              (conj (sameSession_refl st) _))))).
    intros Hown el Hel. destruct (Hown el Hel) as [Heq|?]; [|done].
    rewrite Hact in Heq. done.
Qed.

Lemma activate_inv clock e x y st :
  RegistryOn (timers st) (nextTimer st) (clearDefers st) →
  NoAddOn (timers st) →
  let st' := activate clock e x y st in
  InvOn (timers st') (nextTimer st') (clearDefers st') (activeDefer st') (Some e) ∧
  sameSession st st' ∧ activatableEle st' = activatableEle st ∧
  (∀ el, classList_contains (classes st') el ACTIVATED = true →
         classList_contains (classes st) el ACTIVATED = true ∧ el ≠ e) ∧
  (∀ el, el ≠ e → clearDefers st' !! el = clearDefers st !! el).
Proof.
  intros Hreg Hno. cbv zeta. unfold activate.
  set (st1 := match clearDefers st !! e with
              | Some deferId =>
                  if negb (Nat.eqb deferId 0) then
                    let st := clearTimeout (Some deferId) st in
                    set_clearDefers (delete e (clearDefers st)) st
                  else st
              | None => st
              end).
  assert (H1 : RegistryOn (timers st1) (nextTimer st1) (clearDefers st1) ∧
               NoAddOn (timers st1) ∧ clearDefers st1 !! e = None ∧
               sameSession st st1 ∧ activatableEle st1 = activatableEle st ∧
               classes st1 = classes st ∧
               ∀ el, el ≠ e → clearDefers st1 !! el = clearDefers st !! el).
  { subst st1. destruct (clearDefers st !! e) as [deferId|] eqn:Hget.
    - destruct (reg_timer _ _ _ Hreg _ _ Hget) as (t & Ht & Hcb).
      pose proof (reg_handles _ _ _ Hreg _ _ Ht) as Hpos.
      destruct (Nat.eqb_spec deferId 0) as [->|_]; [lia|]. simpl.
      split; [by apply RegistryOn_unregister|].
      split; [by apply NoAddOn_delete|].
      split; [apply lookup_delete_eq|].
      split; [by repeat split|]. split; [done|]. split; [done|].
      intros el Hne. by rewrite lookup_delete_ne.
    - split; [done|]. split; [done|]. split; [done|].
      split; [apply sameSession_refl|]. done. }
  destruct H1 as (Hreg1 & Hno1 & Hfree1 & Hs1 & Ha1 & Hcl1 & Hcd1).
  clearbody st1. simpl.
  split; [|split; [exact Hs1|split; [exact Ha1|split; [|exact Hcd1]]]].
  - split.
    + by apply RegistryOn_schedule.
    + intros id t el x' y'. rewrite lookup_insert. case_decide as Hid.
      * intros [= <-]. simpl. intros [= -> _ _]. by subst id.
      * intros Hl Hcb. destruct (Hno1 _ _ Hl) as [? ?]. congruence.
    + intros id [= <-]. rewrite lookup_insert_eq. eauto 6.
    + by intros el [= <-].
  - intros el [Hel Hne]%contains_remove_inv. rewrite <- Hcl1.
    split; [done|]. intros ->. by apply Hne.
Qed.

(** [setActivatedElement] keeps the invariant and never throws when it
    holds. *)
Lemma setActivatedElement_inv clock el ev st :
  Inv st →
  ∃ st', setActivatedElement clock el ev st = Ok st' ∧ Inv st' ∧
    sameSession st st' ∧ (MarkedOwned st → MarkedOwned st').
Proof.
  intros HI. unfold setActivatedElement.
  destruct (sameElement el (activatableEle st)).
  { exists st. split; [done|]. split; [done|].
    split; [apply sameSession_refl|done]. }
  destruct (clear_activeDefer st HI) as [Hreg1 Hno1].
  destruct (clearTimeout_fields (activeDefer st) st)
    as (Hs0 & _ & Hc0 & Ha0 & _ & Hcl0 & _).
  set (st1 := set_activeDefer None (clearTimeout (activeDefer st) st)) in *.
  assert (Hs1 : sameSession st st1) by exact Hs0.
  assert (Ha1 : activatableEle st1 = activatableEle st) by exact Ha0.
  assert (Hc1 : clearDefers st1 = clearDefers st) by exact Hc0.
  assert (Hcl1 : classes st1 = classes st) by exact Hcl0.
  assert (Hd1 : activeDefer st1 = None) by reflexivity.
  clearbody st1. clear Hs0 Ha0 Hc0 Hcl0.
  destruct (pointerCoord ev) as [x y].
  destruct (deactivateSelected_ok clock x y st1 Hreg1 Hno1)
    as (st2 & Hrun & Hreg2 & Hno2 & Hd2 & Ha2 & Hs2 & Hm2).
  { intros a Ha. rewrite Hc1. apply (inv_slot _ _ _ _ _ HI). congruence. }
  rewrite Hrun. simpl.
  assert (Hm2' : MarkedOwned st → ∀ a,
            classList_contains (classes st2) a ACTIVATED = true →
            is_Some (clearDefers st2 !! a)).
  { intros Hown. apply Hm2. unfold MarkedOwned. by rewrite Hcl1, Hc1, Ha1. }
  destruct el as [e|].
  - destruct (activate_inv clock e x y st2 Hreg2 Hno2)
      as (HI3 & Hs3 & Ha3 & Hm3 & Hc3).
    eexists. split; [reflexivity|]. split; [exact HI3|].
    split.
    { apply (sameSession_trans _ _ _ Hs1).
      apply (sameSession_trans _ _ _ Hs2). exact Hs3. }
    intros Hown a Ha. unfold MarkedOwned, MarkedOn in *. simpl in *.
    destruct (Hm3 a Ha) as [Hold Hne]. right.
    rewrite (Hc3 a Hne). by apply Hm2'.
  - eexists. split; [reflexivity|]. split.
    { split; simpl.
      - done.
      - intros id t e x' y' Hl Hcb. destruct (Hno2 _ _ Hl) as [? ?]. congruence.
      - rewrite Hd2, Hd1. done.
      - done. }
    split; [apply (sameSession_trans _ _ _ Hs1 Hs2)|].
    intros Hown a Ha. right. by apply Hm2'.
Qed.

(** ** The invariant through the listeners and the timers *)

Lemma cancelActive_inv clock st :
  Inv st →
  let st' := cancelActive clock st in
  Inv st' ∧ sameConfig st st' ∧ (MarkedOwned st → MarkedOwned st').
Proof.
  intros HI. cbv zeta. unfold cancelActive.
  destruct (clear_activeDefer st HI) as [Hreg1 Hno1].
  destruct (clearTimeout_fields (activeDefer st) st)
    as (Hs0 & _ & Hc0 & Ha0 & _ & Hcl0 & _).
  set (st1 := set_activeDefer None (clearTimeout (activeDefer st) st)) in *.
  assert (Hs1 : sameSession st st1) by exact Hs0.
  assert (Ha1 : activatableEle st1 = activatableEle st) by exact Ha0.
  assert (Hc1 : clearDefers st1 = clearDefers st) by exact Hc0.
  assert (Hcl1 : classes st1 = classes st) by exact Hcl0.
  assert (Hd1 : activeDefer st1 = None) by reflexivity.
  clearbody st1. clear Hs0 Ha0 Hc0 Hcl0.
  destruct Hs1 as (_ & _ & _ & Hcfg1).
  unfold Inv, MarkedOwned.
  destruct (activatableEle st1) as [a|] eqn:Hact; cbn.
  - destruct (removeActivated_immediate clock false st1 a Hact eq_refl)
      as (Hs & Ht & Hn & Hc & Ha & Hd & Hcl).
    rewrite Ht, Hn, Hc, Hd, Hd1.
    split.
    { split; [done| |done|done].
      intros id t e x y Hl Hcb. destruct (Hno1 _ _ Hl) as [? ?]. congruence. }
    split.
    { destruct Hs as (_ & _ & _ & Hcfg). apply (sameConfig_trans _ _ _ Hcfg1 Hcfg). }
    intros Hown e. unfold MarkedOn. rewrite Hcl.
    intros [He Hne]%contains_remove_inv. rewrite Hcl1 in He.
    destruct (Hown e He) as [Heq|Hsome]; [|right; by rewrite Hc1].
    rewrite <- Ha1 in Heq. injection Heq as <-. by destruct Hne.
  - rewrite Hd1, Hact.
    split.
    { split; [done| |done|done].
      intros id t e x y Hl Hcb. destruct (Hno1 _ _ Hl) as [? ?]. congruence. }
    split; [exact Hcfg1|].
    intros Hown e. unfold MarkedOn. simpl. rewrite Hcl1, Hc1. intros He.
    destruct (Hown e He) as [Heq|Hsome]; [|by right]. congruence.
Qed.

Lemma timerFires_inv clock id t st :
  Inv st → timers st !! id = Some t →
  let st' := runCallback clock (callback t)
               (set_timers (delete id (timers st)) (nextTimer st) st) in
  Inv st' ∧ sameConfig st st' ∧ (MarkedOwned st → MarkedOwned st').
Proof.
  intros [Hreg Hadd Hdefer Hslot] Hl. cbv zeta.
  unfold Inv, MarkedOwned, runCallback.
  destruct (callback t) as [el x y|el] eqn:Hcb.
  - destruct (Hadd _ _ _ _ _ Hl Hcb) as [Hd Ha].
    set (st1 := set_timers (delete id (timers st)) (nextTimer st) st).
    destruct (addActivated_fields clock el x y st1)
      as (Hs & Ht & Hn & Hc & Hact & _ & _ & Hcl).
    assert (Hcfg : sameConfig st (set_activeDefer None (addActivated clock el x y st1)))
      by (by destruct Hs as (_ & _ & _ & Hcfg)).
    change (InvOn (timers (addActivated clock el x y st1))
              (nextTimer (addActivated clock el x y st1))
              (clearDefers (addActivated clock el x y st1)) None
              (activatableEle (addActivated clock el x y st1)) ∧
            sameConfig st (set_activeDefer None (addActivated clock el x y st1)) ∧
            (MarkedOn (classes st) (clearDefers st) (activatableEle st) →
             MarkedOn (classes (addActivated clock el x y st1))
               (clearDefers (addActivated clock el x y st1))
               (activatableEle (addActivated clock el x y st1)))).
    rewrite Ht, Hn, Hc, Hact, Hcl. subst st1. simpl.
    split.
    { split.
      - apply RegistryOn_unschedule; [done|]. intros e He.
        destruct (reg_timer _ _ _ Hreg _ _ He) as (t' & Ht' & Hcb'). congruence.
      - intros i t' e x' y' Hi Hcb'. apply lookup_delete_Some in Hi as [Hne Hi].
        destruct (Hadd _ _ _ _ _ Hi Hcb') as [Hd' _]. congruence.
      - done.
      - done. }
    split; [exact Hcfg|].
    intros Hown e [[-> _]|He]%contains_add_inv; [by left|by apply Hown].
  - pose proof (reg_entry _ _ _ Hreg _ _ _ Hl Hcb) as Hcd. simpl.
    split.
    { split.
      - by apply RegistryOn_unregister.
      - intros i t' e x' y' Hi Hcb'. apply lookup_delete_Some in Hi as [Hne Hi].
        eauto.
      - intros i Hi. destruct (Hdefer i Hi) as (t' & e & x' & y' & Ht' & Hcb').
        exists t', e, x', y'. split; [|done].
        rewrite lookup_delete_ne; [done|]. congruence.
      - intros e He. apply lookup_delete_None. right. by apply Hslot. }
    split; [by repeat split|].
    intros Hown e. unfold MarkedOn. simpl.
    intros [He Hne]%contains_remove_inv.
    assert (e ≠ el) by (intros ->; by apply Hne).
    rewrite lookup_delete_ne by done. by apply Hown.
Qed.

Lemma Inv_start d config cl : Inv (startTapClick d config cl).
Proof.
  split; simpl.
  - split; [lia|done..].
  - done.
  - done.
  - done.
Qed.

Lemma pointerDown_inv clock ev st :
  Inv st →
  ∃ st', pointerDown clock ev st = Ok st' ∧ Inv st' ∧ sameConfig st st' ∧
    lastTouch st' = lastTouch st ∧ (MarkedOwned st → MarkedOwned st').
Proof.
  intros HI. unfold pointerDown.
  destruct (bool_decide (is_Some (activatableEle st)) || scrolling st).
  { exists st. split; [done|]. split; [done|].
    split; [apply sameConfig_refl|]. done. }
  destruct (setActivatedElement_inv clock
              (getActivatableTarget (classes (set_cancelled false st)) ev) ev
              (set_cancelled false st) HI)
    as (st' & Hrun & HI' & (Hlt & _ & _ & Hcfg) & Hown).
  exists st'. split; [done|]. split; [done|]. split; [exact Hcfg|].
  split; [exact Hlt|exact Hown].
Qed.

Lemma pointerUp_inv clock ev st :
  Inv st →
  ∃ o, pointerUp clock ev st = Ok o ∧ Inv (next o) ∧ sameConfig st (next o) ∧
    (MarkedOwned st → MarkedOwned (next o)).
Proof.
  intros HI. unfold pointerUp. destruct (scrolling st).
  { eexists. split; [reflexivity|]. simpl. split; [done|].
    split; [apply sameConfig_refl|done]. }
  destruct (setActivatedElement_inv clock None ev st HI)
    as (st' & Hrun & HI' & (_ & _ & _ & Hcfg) & Hown).
  rewrite Hrun. simpl. eexists. split; [reflexivity|]. simpl. done.
Qed.

(** The goal left by an input that returns the state it was given. *)
Ltac state_kept HI :=
  eexists; split; [reflexivity|]; simpl;
  split; [exact HI|]; split; [by repeat split|done].

(** Every input keeps the invariant, and no input makes a handler throw. *)
Lemma dispatch_inv clock i st :
  Inv st →
  ∃ o, dispatch clock i st = Ok o ∧ Inv (next o) ∧ sameConfig st (next o) ∧
    (MarkedOwned st → MarkedOwned (next o)).
Proof.
  intros HI. destruct i as [ev| | | |ev|ev|ev|ev|ev|id]; simpl.
  - unfold onBodyClick. destruct (cancelled st || scrolling st); state_kept HI.
  - eexists. split; [reflexivity|]. simpl.
    apply (cancelActive_inv clock (set_scrolling true st) HI).
  - state_kept HI.
  - eexists. split; [reflexivity|]. simpl. by apply cancelActive_inv.
  - unfold onTouchStart.
    destruct (pointerDown_inv clock ev (set_lastTouch (now ev) st) HI)
      as (st' & Hrun & HI' & Hcfg & _ & Hown).
    rewrite Hrun. simpl. eexists. split; [reflexivity|]. simpl. done.
  - apply (pointerUp_inv clock ev (set_lastTouch (now ev) st) HI).
  - apply (pointerUp_inv clock ev (set_lastTouch (now ev) st) HI).
  - unfold onMouseDown. destruct (lastTouch st <? now ev - MOUSE_WAIT).
    + destruct (pointerDown_inv clock ev st HI)
        as (st' & Hrun & HI' & Hcfg & _ & Hown).
      rewrite Hrun. simpl. eexists. split; [reflexivity|]. simpl. done.
    + state_kept HI.
  - unfold onMouseUp. destruct (lastTouch st <? now ev - MOUSE_WAIT).
    + by apply pointerUp_inv.
    + state_kept HI.
  - destruct (timers st !! id) as [t|] eqn:Hl.
    + destruct (setAt t + delay t <=? clock).
      * eexists. split; [reflexivity|]. simpl. by apply timerFires_inv.
      * state_kept HI.
    + state_kept HI.
Qed.

Lemma run_inv inputs : ∀ st,
  Inv st →
  ∃ st', run inputs st = Ok st' ∧ Inv st' ∧ sameConfig st st' ∧
    (MarkedOwned st → MarkedOwned st').
Proof.
  induction inputs as [|[clock i] rest IH]; intros st HI; simpl.
  - exists st. split; [done|]. split; [done|]. split; [apply sameConfig_refl|done].
  - destruct (dispatch_inv clock i st HI) as (o & Hrun & HI' & Hcfg & Hown).
    rewrite Hrun. simpl.
    destruct (IH (next o) HI') as (st' & Hrest & HI'' & Hcfg' & Hown').
    exists st'. split; [done|]. split; [done|].
    split; [apply (sameConfig_trans _ _ _ Hcfg Hcfg')|]. auto.
Qed.

(** ** The internal error and the exclusivity of the slot *)

(** C5. Whatever the sequence of inputs (document events, scroll and gesture
    signals, timers firing), no handler throws the internal error: the run
    returns a state, in that state the element in the activating slot has no
    entry in the deferred-clear registry, which is what the deactivation
    branch of [setActivatedElement] checks, and from that state neither a
    further input nor a direct call of [setActivatedElement] throws. *)
Theorem internal_error_unreachable d config cl inputs :
  ∃ st, run inputs (startTapClick d config cl) = Ok st ∧
    (∀ el, activatableEle st = Some el → clearDefers st !! el = None) ∧
    (∀ clock x y,
       deactivateSelected clock x y
         (set_activeDefer None (clearTimeout (activeDefer st) st))
       ≠ InternalError) ∧
    (∀ clock target ev, setActivatedElement clock target ev st ≠ InternalError) ∧
    (∀ clock i, dispatch clock i st ≠ InternalError).
Proof.
  destruct (run_inv inputs _ (Inv_start d config cl)) as (st & Hrun & HI & _).
  exists st. split; [done|]. split; [apply (inv_slot _ _ _ _ _ HI)|].
  split; [|split].
  - intros clock x y.
    destruct (clear_activeDefer st HI) as [Hreg Hno].
    destruct (clearTimeout_fields (activeDefer st) st)
      as (_ & _ & Hc & Ha & _).
    destruct (deactivateSelected_ok clock x y _ Hreg Hno) as (st' & Hok & _).
    + intros el Hel. simpl. rewrite Hc. apply (inv_slot _ _ _ _ _ HI).
      simpl in Hel. by rewrite <- Ha.
    + by rewrite Hok.
  - intros clock target ev.
    destruct (setActivatedElement_inv clock target ev st HI) as (st' & Hok & _).
    by rewrite Hok.
  - intros clock i.
    destruct (dispatch_inv clock i st HI) as (o & Hok & _). by rewrite Hok.
Qed.

Lemma sampleClasses_unmarked el :
  classList_contains sampleClasses el ACTIVATED = false.
Proof.
  unfold classList_contains, classesOf, sampleClasses.
  apply bool_decide_eq_false.
  rewrite !lookup_insert. repeat case_decide; simpl.
  - by vm_compute.
  - by vm_compute.
  - rewrite lookup_singleton. case_decide; simpl; [by vm_compute|set_solver].
Qed.

(** C3, as stated, fails: element 1 is pressed and released within the
    activation delay, so it gets the marker at the release and keeps it for
    the smoothing period; element 2 is pressed meanwhile and awaits its own
    marker. *)
Lemma exclusivity_fails : ¬ claimedExclusivity.
Proof.
  intros H.
  pose (inputs := [(0, TouchStart (eventOn 1 0)); (50, TouchEnd (eventOn 1 50));
                   (60, TouchStart (eventOn 2 60))]).
  specialize (H sampleDocument (mkConfig ∅) sampleClasses inputs
                (stateAfter inputs sampleStart) sampleClasses_unmarked).
  assert (Hrun : run inputs (startTapClick sampleDocument (mkConfig ∅) sampleClasses)
                 = Ok (stateAfter inputs sampleStart)) by (vm_compute; reflexivity).
  specialize (H Hrun 1%nat 2%nat).
  assert (1%nat = 2%nat); [|discriminate].
  apply H.
  - left. by vm_compute.
  - right. exists 3%nat, (mkTimer (AddActivatedCb 2 5 7) 200 60), 5, 7.
    split; by vm_compute.
Qed.

(** C3, amended. On a page where no element carries the marker at the start,
    after any sequence of inputs: an addition of the marker is pending only
    for the element in the activating slot, so at most one element awaits the
    marker; and an element that carries the marker is the one in the slot or
    one released earlier whose deferred removal is still pending. *)
Theorem exclusive_slot d config cl inputs :
  (∀ el, classList_contains cl el ACTIVATED = false) →
  ∃ st, run inputs (startTapClick d config cl) = Ok st ∧
    (∀ el, pendingAdd st el → activatableEle st = Some el) ∧
    (∀ e1 e2, pendingAdd st e1 → pendingAdd st e2 → e1 = e2) ∧
    (∀ el, marked st el → activatableEle st = Some el ∨ pendingClear st el).
Proof.
  intros Hclean.
  destruct (run_inv inputs _ (Inv_start d config cl))
    as (st & Hrun & HI & _ & Hown).
  exists st. split; [done|].
  assert (Hslot : ∀ el, pendingAdd st el → activatableEle st = Some el).
  { intros el (id & t & x & y & Hl & Hcb).
    by destruct (inv_add _ _ _ _ _ HI _ _ _ _ _ Hl Hcb). }
  split; [exact Hslot|]. split.
  - intros e1 e2 H1%Hslot H2%Hslot. congruence.
  - intros el Hel. destruct Hown with (el := el) as [Hs|[id Hid]].
    + intros e He. simpl in He. by rewrite Hclean in He.
    + exact Hel.
    + by left.
    + right. destruct (reg_timer _ _ _ (inv_registry _ _ _ _ _ HI) _ _ Hid)
        as (t & Ht & Hcb).
      by exists id, t.
Qed.

Lemma exclusive_slot_witness :
  ∃ st, run [(0, TouchStart (eventOn 1 0)); (50, TouchEnd (eventOn 1 50));
             (60, TouchStart (eventOn 2 60))]
          (startTapClick sampleDocument (mkConfig ∅) sampleClasses) = Ok st ∧
    (∀ el, pendingAdd st el → activatableEle st = Some el) ∧
    (∀ e1 e2, pendingAdd st e1 → pendingAdd st e2 → e1 = e2) ∧
    (∀ el, marked st el → activatableEle st = Some el ∨ pendingClear st el).
Proof.
  apply (exclusive_slot sampleDocument (mkConfig ∅) sampleClasses).
  exact sampleClasses_unmarked.
Defined.

(** ** A second pointer-down while the slot is taken *)

(** C2, as stated, fails: element 1 is pressed at 0 and element 2 at 50; the
    second press changes nothing, the addition pending is still the one for
    element 1. *)
Lemma retarget_fails : ¬ claimedRetarget.
Proof.
  intros H.
  destruct (H sampleDocument (mkConfig ∅) sampleClasses 0 50
              (eventOn 1 0) (eventOn 2 50) 1%nat 2%nat sampleDown sampleDown)
    as [_ (id & t & x & y & Hl & Hcb)];
    try (vm_compute; reflexivity); try done.
  destruct (pointerDown_inv 0 (eventOn 1 0) sampleStart
              (Inv_start sampleDocument (mkConfig ∅) sampleClasses))
    as (st' & Hrun & HI & _).
  assert (st' = sampleDown) as ->.
  { unfold sampleDown. by rewrite Hrun. }
  destruct (inv_add _ _ _ _ _ HI _ _ _ _ _ Hl Hcb) as [_ Hslot].
  vm_compute in Hslot. discriminate.
Qed.

(** C2, amended. While an element [a] holds the activating slot, a
    pointer-down, whatever its target, is ignored: [pointerDown] returns the
    state as it was, so no timer is started for the new target and the one
    pending for [a] stays; when that one fires, [a] receives the marker. *)
Theorem second_pointerDown_ignored clock ev st a :
  activatableEle st = Some a →
  pointerDown clock ev st = Ok st ∧
  ∀ id t x y clock',
    timers st !! id = Some t → callback t = AddActivatedCb a x y →
    setAt t + delay t <= clock' →
    ∃ o, dispatch clock' (TimerFires id) st = Ok o ∧ marked (next o) a.
Proof.
  intros Hslot. split.
  - unfold pointerDown. by rewrite Hslot.
  - intros id t x y clock' Hl Hcb Hdue. simpl. rewrite Hl.
    destruct (Z.leb_spec (setAt t + delay t) clock'); [|lia].
    eexists. split; [reflexivity|]. rewrite Hcb. unfold marked. simpl.
    destruct (addActivated_fields clock' a x y
                (set_timers (delete id (timers st)) (nextTimer st) st))
      as (_ & _ & _ & _ & _ & _ & _ & Hcl).
    change (classList_contains
              (classes (addActivated clock' a x y
                 (set_timers (delete id (timers st)) (nextTimer st) st)))
              a ACTIVATED = true).
    rewrite Hcl. apply contains_add_same.
Qed.

Lemma second_pointerDown_ignored_witness :
  pointerDown 50 (eventOn 2 50) sampleDown = Ok sampleDown ∧
  ∃ o, dispatch 200 (TimerFires 1) sampleDown = Ok o ∧ marked (next o) 1.
Proof.
  destruct (second_pointerDown_ignored 50 (eventOn 2 50) sampleDown 1)
    as [Hsame Hfire]; [by vm_compute|].
  split; [exact Hsame|].
  apply (Hfire 1%nat (mkTimer (AddActivatedCb 1 5 7) 200 0) 5 7 200).
  - by vm_compute.
  - reflexivity.
  - simpl. lia.
Defined.

(** ** Smoothed removal *)

(** C1, as stated, fails: element 1 got the marker at 1200 and is released at
    1250; 150 remain of the minimum visible duration, the timer is set for
    200. *)
Lemma remaining_delay_fails : ¬ claimedRemainingDelay.
Proof.
  intros H.
  destruct (H 1250 samplePressed 1%nat) as (id & t & Hreg & Hl & Hdelay);
    try (by vm_compute).
  destruct (removeActivated_smooth 1250 samplePressed 1)
    as (_ & Ht & _ & Hc & _); try (by vm_compute).
  rewrite Hc, lookup_insert_eq in Hreg. injection Hreg as <-.
  rewrite Ht, lookup_insert_eq in Hl. injection Hl as <-.
  vm_compute in Hdelay. discriminate.
Qed.

(** C1, amended. When [removeActivated] is called with smoothing while less
    than [CLEAR_STATE_DEFERS] has passed since the marker was applied and the
    active element is not instant, the marker is not removed at once: one
    timer is set whose delay is the whole of [CLEAR_STATE_DEFERS], whatever
    the time elapsed, and its handle is registered for the element in
    [clearDefers]. *)
Theorem removeActivated_defers_by_full_period clock st active :
  activatableEle st = Some active →
  clock - lastActivated st < CLEAR_STATE_DEFERS →
  isInstant (classes st) active = false →
  let st' := removeActivated clock true st in
  classes st' = classes st ∧
  clearDefers st' = <[active := nextTimer st]> (clearDefers st) ∧
  timers st' =
    <[nextTimer st := mkTimer (ClearStateCb active) CLEAR_STATE_DEFERS clock]>
      (timers st) ∧
  nextTimer st' = S (nextTimer st).
Proof.
  intros Hslot Hearly Hinst.
  assert (Htime : 0 < CLEAR_STATE_DEFERS - clock + lastActivated st) by lia.
  destruct (removeActivated_smooth clock st active Hslot Htime Hinst)
    as (_ & Ht & Hn & Hc & _ & _ & Hcl).
  by repeat split.
Qed.

Lemma removeActivated_defers_by_full_period_witness :
  let st' := removeActivated 1250 true samplePressed in
  classes st' = classes samplePressed ∧
  clearDefers st' = <[1%nat := nextTimer samplePressed]> (clearDefers samplePressed) ∧
  timers st' =
    <[nextTimer samplePressed := mkTimer (ClearStateCb 1) CLEAR_STATE_DEFERS 1250]>
      (timers samplePressed) ∧
  nextTimer st' = S (nextTimer samplePressed).
Proof.
  apply (removeActivated_defers_by_full_period 1250 samplePressed 1).
  - by vm_compute.
  - by vm_compute.
  - by vm_compute.
Defined.

(** ** Touch and mouse *)

Lemma removeActivated_session clock smooth st :
  sameSession st (removeActivated clock smooth st).
Proof.
  unfold removeActivated.
  destruct (activeRipple st); simpl;
    (destruct (activatableEle st); simpl; [|by repeat split]);
    match goal with |- context [if ?c then _ else _] => destruct c end;
    simpl; by repeat split.
Qed.

Lemma activate_session clock e x y st :
  sameSession st (activate clock e x y st).
Proof.
  unfold activate.
  destruct (clearDefers st !! e) as [deferId|]; simpl;
    [destruct (Nat.eqb deferId 0); simpl|]; by repeat split.
Qed.

Lemma setActivatedElement_session clock el ev st st' :
  setActivatedElement clock el ev st = Ok st' → sameSession st st'.
Proof.
  unfold setActivatedElement.
  destruct (sameElement el (activatableEle st)).
  { intros [= <-]. apply sameSession_refl. }
  destruct (clearTimeout_fields (activeDefer st) st) as (Hs0 & _).
  set (st1 := set_activeDefer None (clearTimeout (activeDefer st) st)).
  assert (Hs1 : sameSession st st1) by exact Hs0. clearbody st1.
  destruct (pointerCoord ev) as [x y].
  unfold deactivateSelected.
  assert (Hs2 : ∀ st2,
    match activatableEle st1 with
    | Some active =>
        if bool_decide (is_Some (clearDefers st1 !! active)) then InternalError
        else
          Ok (removeActivated clock true
                (if negb (classList_contains (classes st1) active ACTIVATED)
                 then addActivated clock active x y st1 else st1))
    | None => Ok st1
    end = Ok st2 → sameSession st st2).
  { intros st2. destruct (activatableEle st1) as [active|]; [|by intros [= <-]].
    destruct (bool_decide _); [done|]. intros [= <-].
    apply (sameSession_trans _ st1); [done|].
    destruct (negb _).
    - apply (sameSession_trans _ (addActivated clock active x y st1)).
      + apply addActivated_fields.
      + apply removeActivated_session.
    - apply removeActivated_session. }
  destruct (match activatableEle st1 with Some _ => _ | None => _ end)
    as [st2|]; [|done].
  specialize (Hs2 st2 eq_refl). simpl. intros [= <-].
  destruct el as [e|]; simpl.
  - apply (sameSession_trans _ _ _ Hs2).
    apply (activate_session clock e x y st2).
  - exact Hs2.
Qed.

Lemma pointerDown_lastTouch clock ev st st' :
  pointerDown clock ev st = Ok st' → lastTouch st' = lastTouch st.
Proof.
  unfold pointerDown. destruct (_ || _); [by intros [= <-]|].
  intros H%setActivatedElement_session. by destruct H as (Hlt & _).
Qed.

Lemma cancelActive_lastTouch clock st :
  lastTouch (cancelActive clock st) = lastTouch st.
Proof.
  unfold cancelActive.
  destruct (clearTimeout_fields (activeDefer st) st) as ((Hlt & _) & _).
  set (st1 := set_activeDefer None (clearTimeout (activeDefer st) st)).
  assert (Hlt1 : lastTouch st1 = lastTouch st) by exact Hlt. clearbody st1.
  destruct (activatableEle st1); simpl; [|done].
  by destruct (removeActivated_session clock false st1) as (-> & _).
Qed.

Lemma pointerUp_lastTouch clock ev st o :
  pointerUp clock ev st = Ok o → lastTouch (next o) = lastTouch st.
Proof.
  unfold pointerUp. destruct (scrolling st); [by intros [= <-]|].
  destruct (setActivatedElement clock None ev st) as [st'|] eqn:Hset; [|done].
  simpl. intros [= <-]. simpl.
  by destruct (setActivatedElement_session _ _ _ _ _ Hset) as (Hlt & _).
Qed.

(** Only the touch listeners write [lastTouch]. *)
Lemma dispatch_lastTouch clock i st o :
  isTouch i = false → dispatch clock i st = Ok o →
  lastTouch (next o) = lastTouch st.
Proof.
  destruct i as [ev| | | |ev|ev|ev|ev|ev|id]; simpl; try done; intros _.
  - intros [= <-]. unfold onBodyClick. by destruct (_ || _).
  - intros [= <-]. simpl. apply (cancelActive_lastTouch clock (set_scrolling true st)).
  - by intros [= <-].
  - intros [= <-]. simpl. apply cancelActive_lastTouch.
  - unfold onMouseDown, lift. destruct (lastTouch st <? now ev - MOUSE_WAIT).
    + destruct (pointerDown clock ev st) as [st'|] eqn:Hdown; [|done].
      simpl. intros [= <-]. simpl. by apply pointerDown_lastTouch in Hdown.
    + simpl. by intros [= <-].
  - unfold onMouseUp. destruct (lastTouch st <? now ev - MOUSE_WAIT).
    + apply pointerUp_lastTouch.
    + by intros [= <-].
  - destruct (timers st !! id) as [t|]; [|by intros [= <-]].
    destruct (setAt t + delay t <=? clock); [|by intros [= <-]].
    intros [= <-]. simpl. destruct (callback t) as [el x y|el]; simpl; [|done].
    by destruct (addActivated_fields clock el x y
                   (set_timers (delete id (timers st)) (nextTimer st) st))
      as ((Hlt & _) & _).
Qed.

Lemma run_lastTouch inputs : ∀ st st',
  forallb (fun ci => negb (isTouch (snd ci))) inputs = true →
  run inputs st = Ok st' → lastTouch st' = lastTouch st.
Proof.
  induction inputs as [|[clock i] rest IH]; intros st st'; simpl.
  - by intros _ [= <-].
  - intros [Hi Hrest]%andb_prop. apply negb_true_iff in Hi.
    destruct (dispatch clock i st) as [o|] eqn:Hd; [|done]. simpl.
    intros Hrun. rewrite (IH _ _ Hrest Hrun).
    by apply (dispatch_lastTouch clock i).
Qed.



(** ** Cancellation *)

(** C6. [cancelActive] clears the pending activation timer, if any, and sets
    no other; when an element holds the slot it removes the marker from it
    at once, no removal being deferred, and empties the slot; it sets the
    cancelled flag, so that the body click handler suppresses a click that
    comes next (default prevented, propagation stopped). *)
Theorem cancelActive_cancels clock st :
  let st' := cancelActive clock st in
  timers st' = match activeDefer st with
               | Some id => delete id (timers st)
               | None => timers st
               end ∧
  activeDefer st' = None ∧
  activatableEle st' = None ∧
  cancelled st' = true ∧
  clearDefers st' = clearDefers st ∧
  classes st' = match activatableEle st with
                | Some active => classList_remove (classes st) active ACTIVATED
                | None => classes st
                end ∧
  match activatableEle st with
  | Some active => classList_contains (classes st') active ACTIVATED = false
  | None => True
  end ∧
  onBodyClick st' = mkOutcome st' true true ∧
  ∀ clock' ev, dispatch clock' (Click ev) st' = Ok (mkOutcome st' true true).
Proof.
  cbv zeta. unfold cancelActive.
  destruct (clearTimeout_fields (activeDefer st) st)
    as (_ & _ & Hc0 & Ha0 & _ & Hcl0 & _ & Ht0).
  set (st1 := set_activeDefer None (clearTimeout (activeDefer st) st)) in *.
  assert (Ha1 : activatableEle st1 = activatableEle st) by exact Ha0.
  assert (Hc1 : clearDefers st1 = clearDefers st) by exact Hc0.
  assert (Hcl1 : classes st1 = classes st) by exact Hcl0.
  assert (Ht1 : timers st1 = match activeDefer st with
                             | Some id => delete id (timers st)
                             | None => timers st
                             end) by exact Ht0.
  assert (Hd1 : activeDefer st1 = None) by reflexivity.
  clearbody st1. clear Hc0 Ha0 Hcl0 Ht0. rewrite <- Ha1.
  destruct (activatableEle st1) as [a|] eqn:Hact.
  - destruct (removeActivated_immediate clock false st1 a Hact eq_refl)
      as (_ & Ht & _ & Hc & _ & Hd & Hcl).
    cbn [timers activeDefer activatableEle cancelled clearDefers classes
         set_cancelled set_activatableEle].
    rewrite Ht, Hd, Hc, Hcl, Hcl1.
    split; [done|]. split; [done|]. split; [done|]. split; [done|].
    split; [done|]. split; [done|]. split; [apply contains_remove_same|].
    split; [done|]. done.
  - cbn [timers activeDefer activatableEle cancelled clearDefers classes
         set_cancelled set_activatableEle].
    rewrite Hact. by repeat split.
Qed.

(** ** Ripples *)

Lemma addActivated_ripple clock el x y st :
  let st' := addActivated clock el x y st in
  match (if useRippleEffect st then getRippleEffect (doc st) el else None) with
  | Some r =>
      if hasAddRipple r then
        ripplesAdded st' = mkRippleCall r x y :: ripplesAdded st ∧
        activeRipple st' = Some (mkRippleCall r x y)
      else ripplesAdded st' = ripplesAdded st ∧ activeRipple st' = activeRipple st
  | None => ripplesAdded st' = ripplesAdded st ∧ activeRipple st' = activeRipple st
  end.
Proof.
  cbv zeta. unfold addActivated. simpl.
  destruct (if useRippleEffect st then getRippleEffect (doc st) el else None)
    as [r|]; [destruct (hasAddRipple r)|]; by split.
Qed.

(** C8. The ripple switch is the conjunction of the configuration flags
    ['animated'] and ['rippleEffect'], each read with fallback [true], so
    each counts as true when absent.  After any run, [addActivated] records
    the time and applies the marker in every case; it calls [addRipple], at
    the coordinates given, only if both flags are true and the element hosts
    a ripple sub-element that has the method, and then it does; with either
    flag false no call of [addRipple] is made, neither by [addActivated] nor
    anywhere in the run. *)
Theorem ripple_only_when_enabled d config cl inputs :
  (∀ key, entries config !! key = None → getBoolean config key true = true) ∧
  ∃ st, run inputs (startTapClick d config cl) = Ok st ∧
    (getBoolean config "animated" true = false ∨
     getBoolean config "rippleEffect" true = false → ripplesAdded st = []) ∧
    ∀ clock el x y,
      let st' := addActivated clock el x y st in
      lastActivated st' = clock ∧
      marked st' el ∧
      (ripplesAdded st' ≠ ripplesAdded st →
         getBoolean config "animated" true = true ∧
         getBoolean config "rippleEffect" true = true ∧
         ∃ r, getRippleEffect d el = Some r ∧ hasAddRipple r = true ∧
              ripplesAdded st' = mkRippleCall r x y :: ripplesAdded st) ∧
      (getBoolean config "animated" true = true →
       getBoolean config "rippleEffect" true = true →
       ∀ r, getRippleEffect d el = Some r → hasAddRipple r = true →
            ripplesAdded st' = mkRippleCall r x y :: ripplesAdded st) ∧
      (getBoolean config "animated" true = false ∨
       getBoolean config "rippleEffect" true = false →
         ripplesAdded st' = ripplesAdded st ∧ activeRipple st' = activeRipple st).
Proof.
  split.
  { intros key Hkey. unfold getBoolean. by rewrite Hkey. }
  destruct (run_inv inputs _ (Inv_start d config cl))
    as (st & Hrun & _ & (Huse & Hdoc & Hquiet) & _).
  simpl in Huse, Hdoc, Hquiet.
  exists st. split; [done|]. split.
  { intros Hoff. apply Hquiet.
    destruct Hoff as [-> | ->]; [done|apply andb_false_r]. }
  intros clock el x y. cbv zeta.
  destruct (addActivated_fields clock el x y st)
    as (_ & _ & _ & _ & _ & _ & Hla & Hcl).
  pose proof (addActivated_ripple clock el x y st) as Hr. cbv zeta in Hr.
  rewrite Huse, Hdoc in Hr.
  split; [done|]. split.
  { unfold marked. rewrite Hcl. apply contains_add_same. }
  destruct (getBoolean config "animated" true),
           (getBoolean config "rippleEffect" true); simpl in Hr.
  - destruct (getRippleEffect d el) as [r|].
    + destruct (hasAddRipple r) eqn:Hhas; destruct Hr as [Hr1 Hr2].
      * split; [intros _; eauto 6|]. split; [by intros _ _ r' [= <-] _|].
        by intros [?|?].
      * split; [done|]. split; [|by intros [?|?]].
        intros _ _ r' [= <-]. congruence.
    + destruct Hr as [Hr1 Hr2]. split; [done|]. split; [done|]. by intros [?|?].
  - destruct Hr as [Hr1 Hr2]. by repeat split.
  - destruct Hr as [Hr1 Hr2]. by repeat split.
  - destruct Hr as [Hr1 Hr2]. by repeat split.
Qed.

End TapClickFacts.

(** * Properties of the accordion *)

Module AccordionFacts.
Import Accordion.

Lemma includes_In l v : includes l v = true ↔ In v l.
Proof.
  unfold includes. rewrite existsb_exists. split.
  - intros (s & Hin & Heq). apply String.eqb_eq in Heq. by subst.
  - intros Hin. exists v. split; [done|]. apply String.eqb_refl.
Qed.

(** C9, as stated, fails in its last clause: connecting an accordion whose
    value is the group's expands it, and no [ionChange] was signalled. *)
Lemma only_ionChange_fails : ¬ claimedOnlyIonChange.
Proof.
  intros H.
  specialize (H (fun _ => Single "a") Connected sampleAccordion).
  simpl in H. discriminate H. discriminate.
Qed.

(** C9, amended. [toggleExpanded] leaves every field of the accordion as it
    was: with a group it makes the single call
    [requestAccordionToggle(value, !expanded)] on it, without one it does
    nothing.  No operation changes [value], and [expanded] changes only
    through [updateState], which runs when the accordion is connected inside
    a group and when the group signals [ionChange]. *)
Theorem toggleExpanded_requests_group valueOf a :
  toggleExpanded a =
    (a, match accordionGroupEl a with
        | Some g => [RequestAccordionToggle g (value a) (negb (expanded a))]
        | None => []
        end) ∧
  ∀ op,
    value (fst (step valueOf op a)) = value a ∧
    (expanded (fst (step valueOf op a)) ≠ expanded a →
       (op = GroupIonChange ∧ fst (step valueOf op a) = updateState valueOf a) ∨
       (op = Connected ∧ ∃ g,
          fst (step valueOf op a) =
          updateState valueOf (set_accordionGroupEl (Some g) a))).
Proof.
  split.
  - unfold toggleExpanded. by destruct (accordionGroupEl a).
  - intros op. destruct op; simpl.
    + unfold connectedCallback.
      destruct (match el a with Some host => closestGroup host | None => None end)
        as [g|]; simpl.
      * unfold updateState. simpl. split.
        { by destruct (value a) eqn:Hv. }
        intros _. right. split; [done|]. by exists g.
      * done.
    + unfold disconnectedCallback. by destruct (accordionGroupEl a).
    + unfold updateState. split.
      { by destruct (value a) eqn:Hv, (accordionGroupEl a). }
      intros _. by left.
    + unfold toggleExpanded. by destruct (accordionGroupEl a).
Qed.

Lemma toggleExpanded_requests_group_witness :
  toggleExpanded sampleConnected =
    (sampleConnected, [RequestAccordionToggle 7 (Some "a"%string) true]) ∧
  fst (step (fun _ => Single "a") GroupIonChange sampleConnected)
  = updateState (fun _ => Single "a") sampleConnected.
Proof.
  destruct (toggleExpanded_requests_group (fun _ => Single "a") sampleConnected)
    as [Htoggle Hstep].
  split; [exact Htoggle|].
  destruct (Hstep GroupIonChange) as [_ Hchange].
  destruct Hchange as [[_ Hup]|[Hop _]].
  - simpl. discriminate.
  - exact Hup.
  - discriminate Hop.
Defined.

(** C10. [updateState] leaves the accordion as it was when its value is
    undefined or it has no group; otherwise it changes [expanded] alone, to
    whether the group's value, a single value or an array, matches or
    contains the accordion's value.  The [ionChange] listener is
    [updateState]; and connecting where no enclosing group is found leaves
    [expanded] as it was. *)
Theorem updateState_mirrors_group valueOf a :
  (value a = None ∨ accordionGroupEl a = None → updateState valueOf a = a) ∧
  (∀ v g, value a = Some v → accordionGroupEl a = Some g →
     updateState valueOf a = set_expanded (expanded (updateState valueOf a)) a ∧
     (expanded (updateState valueOf a) = true ↔ matchesOrContains (valueOf g) v)) ∧
  fst (step valueOf GroupIonChange a) = updateState valueOf a ∧
  (match el a with Some host => closestGroup host | None => None end = None →
     expanded (fst (connectedCallback valueOf a)) = expanded a).
Proof.
  split; [|split; [|split]].
  - unfold updateState. intros [-> | Hg]; [done|].
    rewrite Hg. by destruct (value a).
  - intros v g Hv Hg. unfold updateState. rewrite Hv, Hg. simpl.
    split; [done|].
    destruct (valueOf g) as [| |s|l]; simpl; try (split; [done|tauto]).
    + apply String.eqb_eq.
    + apply includes_In.
  - done.
  - unfold connectedCallback. by intros ->.
Qed.

Lemma updateState_mirrors_group_witness :
  updateState (fun _ => Many ["b"; "a"]) sampleAccordion = sampleAccordion ∧
  (expanded (updateState (fun _ => Many ["b"; "a"]) sampleConnected) = true
   ↔ matchesOrContains (Many ["b"; "a"]) "a").
Proof.
  split.
  - destruct (updateState_mirrors_group (fun _ => Many ["b"; "a"]) sampleAccordion)
      as (Hnone & _).
    apply Hnone. right. reflexivity.
  - destruct (updateState_mirrors_group (fun _ => Many ["b"; "a"]) sampleConnected)
      as (_ & Hsome & _).
    apply (Hsome "a"%string 7%nat); reflexivity.
Defined.

End AccordionFacts.

(** * Further properties of the tap-click engine *)

Module TapClickExtra.
Import TapClick TapClickFacts.

(** ** Classes other than "activated" *)

Lemma contains_add_other cl el c el' c' :
  c ≠ c' →
  classList_contains (classList_add cl el c) el' c' = classList_contains cl el' c'.
Proof.
  intros Hc. unfold classList_contains. rewrite classesOf_add.
  destruct (decide (el = el')) as [->|]; [|done].
  apply bool_decide_ext. set_solver.
Qed.

Lemma contains_remove_other cl el c el' c' :
  c ≠ c' →
  classList_contains (classList_remove cl el c) el' c' = classList_contains cl el' c'.
Proof.
  intros Hc. unfold classList_contains. rewrite classesOf_remove.
  destruct (decide (el = el')) as [->|]; [|done].
  apply bool_decide_ext. set_solver.
Qed.

Lemma instant_not_activated : ACTIVATED ≠ ION_ACTIVATABLE_INSTANT.
Proof. done. Qed.

(** ** Release of the element in the slot *)

(** [pointerUp] when an element holds the slot and the page does not
    scroll, unfolded down to [addActivated] and [removeActivated]. *)
Lemma pointerUp_release clock ev st a :
  scrolling st = false → activatableEle st = Some a →
  clearDefers st !! a = None →
  pointerUp clock ev st =
  Ok (mkOutcome
        (set_activatableEle None
           (removeActivated clock true
              (if negb (classList_contains (classes st) a ACTIVATED)
               then addActivated clock a (pointerCoord ev).1 (pointerCoord ev).2
                      (withoutActiveDefer st)
               else withoutActiveDefer st)))
        (cancelled st && cancelable ev) false).
Proof.
  intros Hscroll Hslot Hfree. unfold pointerUp. rewrite Hscroll.
  unfold setActivatedElement. simpl. fold (withoutActiveDefer st).
  destruct (pointerCoord ev) as [x y]. simpl.
  destruct (clearTimeout_fields (activeDefer st) st)
    as ((_ & Hcan & _) & _ & Hc & Ha & _ & Hcl & _).
  unfold deactivateSelected.
  change (activatableEle (withoutActiveDefer st))
    with (activatableEle (clearTimeout (activeDefer st) st)).
  change (clearDefers (withoutActiveDefer st))
    with (clearDefers (clearTimeout (activeDefer st) st)).
  change (classes (withoutActiveDefer st))
    with (classes (clearTimeout (activeDefer st) st)).
  rewrite Ha, Hslot, Hc, Hfree, Hcl.
  rewrite bool_decide_eq_false_2 by (by intros [? ?]). simpl.
  f_equal. f_equal.
  set (st2 := if negb _ then _ else _).
  assert (Hcan2 : cancelled st2 = cancelled st).
  { subst st2. destruct (negb _).
    - destruct (addActivated_fields clock a x y (withoutActiveDefer st))
        as ((_ & -> & _) & _). exact Hcan.
    - exact Hcan. }
  destruct (removeActivated_session clock true st2) as (_ & -> & _).
  by rewrite Hcan2.
Qed.

Lemma withoutActiveDefer_fields st :
  let st' := withoutActiveDefer st in
  timers st' = otherTimers st ∧ nextTimer st' = nextTimer st ∧
  clearDefers st' = clearDefers st ∧ activatableEle st' = activatableEle st ∧
  activeDefer st' = None ∧ classes st' = classes st ∧
  lastActivated st' = lastActivated st.
Proof.
  unfold withoutActiveDefer, otherTimers.
  destruct (activeDefer st); simpl; by repeat split.
Qed.

Lemma removeActivated_lastActivated clock smooth st :
  lastActivated (removeActivated clock smooth st) = lastActivated st.
Proof.
  unfold removeActivated.
  destruct (activeRipple st); simpl;
    (destruct (activatableEle st); simpl; [|done]);
    match goal with |- context [if ?c then _ else _] => destruct c end; done.
Qed.

(** X1. A tap released before its activation timer has fired still shows:
    when the element in the slot is not instant and does not carry the
    marker yet, [pointerUp] cancels the pending addition, applies the marker
    at once, stamps [lastActivated] with the time of the release and defers
    the removal by [CLEAR_STATE_DEFERS]; the slot is empty afterwards.  When
    that timer fires the marker goes and the registry is as before the
    release, no timer of the tap being left. *)
Theorem short_tap_shows_marker clock ev st a :
  scrolling st = false → activatableEle st = Some a →
  clearDefers st !! a = None →
  classList_contains (classes st) a ACTIVATED = false →
  isInstant (classes st) a = false →
  ∃ o, pointerUp clock ev st = Ok o ∧
    marked (next o) a ∧ lastActivated (next o) = clock ∧
    activatableEle (next o) = None ∧ activeDefer (next o) = None ∧
    clearDefers (next o) = <[a := nextTimer st]> (clearDefers st) ∧
    timers (next o) =
      <[nextTimer st := mkTimer (ClearStateCb a) CLEAR_STATE_DEFERS clock]>
        (otherTimers st) ∧
    ∀ clock', clock + CLEAR_STATE_DEFERS <= clock' →
      ∃ o', dispatch clock' (TimerFires (nextTimer st)) (next o) = Ok o' ∧
        classList_contains (classes (next o')) a ACTIVATED = false ∧
        clearDefers (next o') = clearDefers st ∧
        timers (next o') = delete (nextTimer st) (otherTimers st).
Proof.
  intros Hscroll Hslot Hfree Hunmarked Hinst.
  rewrite (pointerUp_release clock ev st a Hscroll Hslot Hfree), Hunmarked.
  simpl. eexists. split; [reflexivity|]. simpl.
  destruct (withoutActiveDefer_fields st)
    as (Ht0 & Hn0 & Hc0 & Ha0 & Hd0 & Hcl0 & _).
  set (x := (pointerCoord ev).1). set (y := (pointerCoord ev).2).
  destruct (addActivated_fields clock a x y (withoutActiveDefer st))
    as (_ & Ht1 & Hn1 & Hc1 & Ha1 & Hd1 & Hla1 & Hcl1).
  set (st1 := addActivated clock a x y (withoutActiveDefer st)) in *.
  assert (Hslot1 : activatableEle st1 = Some a) by congruence.
  assert (Htime : 0 < CLEAR_STATE_DEFERS - clock + lastActivated st1).
  { rewrite Hla1. unfold CLEAR_STATE_DEFERS. lia. }
  assert (Hinst1 : isInstant (classes st1) a = false).
  { unfold isInstant. rewrite Hcl1, Hcl0.
    rewrite contains_add_other by exact instant_not_activated. exact Hinst. }
  destruct (removeActivated_smooth clock st1 a Hslot1 Htime Hinst1)
    as (_ & Ht2 & Hn2 & Hc2 & _ & Hd2 & Hcl2).
  set (st2 := removeActivated clock true st1) in *.
  assert (Hla2 : lastActivated st2 = clock).
  { subst st2. by rewrite removeActivated_lastActivated. }
  clearbody st2 st1.
  rewrite Hn1, Hn0 in Ht2, Hc2. rewrite Ht1, Ht0 in Ht2. rewrite Hc1, Hc0 in Hc2.
  split.
  { unfold marked. simpl. rewrite Hcl2, Hcl1. apply contains_add_same. }
  split; [exact Hla2|]. split; [done|]. split; [congruence|].
  split; [exact Hc2|]. split; [exact Ht2|].
  intros clock' Hdue.
  assert (Hl : timers st2 !! nextTimer st
               = Some (mkTimer (ClearStateCb a) CLEAR_STATE_DEFERS clock))
    by (rewrite Ht2; apply lookup_insert_eq).
  rewrite Hl. cbn [setAt delay callback].
  destruct (Z.leb_spec (clock + CLEAR_STATE_DEFERS) clock'); [|lia].
  eexists. split; [reflexivity|]. simpl.
  split; [apply contains_remove_same|].
  rewrite Hc2, Ht2. split.
  - by apply delete_insert_id.
  - apply delete_insert_eq.
Qed.

Lemma short_tap_shows_marker_witness :
  ∃ o, pointerUp 50 (eventOn 1 50) sampleDown = Ok o ∧
    marked (next o) 1 ∧ lastActivated (next o) = 50 ∧
    activatableEle (next o) = None ∧ activeDefer (next o) = None ∧
    clearDefers (next o) = <[1%nat := nextTimer sampleDown]> (clearDefers sampleDown) ∧
    timers (next o) =
      <[nextTimer sampleDown := mkTimer (ClearStateCb 1) CLEAR_STATE_DEFERS 50]>
        (otherTimers sampleDown) ∧
    ∀ clock', 50 + CLEAR_STATE_DEFERS <= clock' →
      ∃ o', dispatch clock' (TimerFires (nextTimer sampleDown)) (next o) = Ok o' ∧
        classList_contains (classes (next o')) 1 ACTIVATED = false ∧
        clearDefers (next o') = clearDefers sampleDown ∧
        timers (next o') = delete (nextTimer sampleDown) (otherTimers sampleDown).
Proof.
  apply (short_tap_shows_marker 50 (eventOn 1 50) sampleDown 1);
    by vm_compute.
Defined.

(** X2. Release without smoothing: when the element in the slot is instant,
    or carries the marker and got it at least [CLEAR_STATE_DEFERS] ago,
    [pointerUp] removes the marker at once; it sets no timer and leaves the
    registry as it was, and the slot is empty afterwards. *)
Theorem release_without_smoothing clock ev st a :
  scrolling st = false → activatableEle st = Some a →
  clearDefers st !! a = None →
  isInstant (classes st) a = true ∨
  (classList_contains (classes st) a ACTIVATED = true ∧
   CLEAR_STATE_DEFERS <= clock - lastActivated st) →
  ∃ o, pointerUp clock ev st = Ok o ∧
    classList_contains (classes (next o)) a ACTIVATED = false ∧
    activatableEle (next o) = None ∧ activeDefer (next o) = None ∧
    clearDefers (next o) = clearDefers st ∧
    timers (next o) = otherTimers st ∧
    nextTimer (next o) = nextTimer st.
Proof.
  intros Hscroll Hslot Hfree Hwhy.
  rewrite (pointerUp_release clock ev st a Hscroll Hslot Hfree).
  eexists. split; [reflexivity|]. simpl.
  destruct (withoutActiveDefer_fields st)
    as (Ht0 & Hn0 & Hc0 & Ha0 & Hd0 & Hcl0 & Hla0).
  set (x := (pointerCoord ev).1). set (y := (pointerCoord ev).2).
  set (st1 := if negb (classList_contains (classes st) a ACTIVATED)
              then addActivated clock a x y (withoutActiveDefer st)
              else withoutActiveDefer st).
  assert (H1 : timers st1 = otherTimers st ∧ nextTimer st1 = nextTimer st ∧
               clearDefers st1 = clearDefers st ∧ activatableEle st1 = Some a ∧
               activeDefer st1 = None ∧
               isInstant (classes st1) a = isInstant (classes st) a ∧
               (classList_contains (classes st) a ACTIVATED = true →
                lastActivated st1 = lastActivated st)).
  { subst st1. destruct (classList_contains (classes st) a ACTIVATED);
      cbn [negb].
    - refine (conj Ht0 (conj Hn0 (conj Hc0 (conj _ (conj Hd0 (conj _ _)))))).
      + congruence.
      + by rewrite Hcl0.
      + intros _. exact Hla0.
    - destruct (addActivated_fields clock a x y (withoutActiveDefer st))
        as (_ & Ht1 & Hn1 & Hc1 & Ha1 & Hd1 & _ & Hcl1).
      rewrite Ht1, Hn1, Hc1, Ha1, Hd1, Hcl1, Hcl0.
      refine (conj Ht0 (conj Hn0 (conj Hc0 (conj _ (conj Hd0 (conj _ _)))))).
      + congruence.
      + unfold isInstant. apply contains_add_other, instant_not_activated.
      + done. }
  destruct H1 as (Ht1 & Hn1 & Hc1 & Ha1 & Hd1 & Hi1 & Hla1). clearbody st1.
  assert (Hcond : true && (0 <? CLEAR_STATE_DEFERS - clock + lastActivated st1)
                  && negb (isInstant (classes st1) a) = false).
  { rewrite Hi1. destruct Hwhy as [-> | [Hm Hlong]].
    - apply andb_false_r.
    - rewrite (Hla1 Hm).
      destruct (Z.ltb_spec 0 (CLEAR_STATE_DEFERS - clock + lastActivated st));
        [lia|done]. }
  destruct (removeActivated_immediate clock true st1 a Ha1 Hcond)
    as (_ & Ht2 & Hn2 & Hc2 & _ & Hd2 & Hcl2).
  rewrite Ht2, Hn2, Hc2, Hd2, Hcl2.
  split; [apply contains_remove_same|]. by repeat split.
Qed.

Lemma release_without_smoothing_witness :
  ∃ o, pointerUp 10 (eventOn 3 10) sampleInstantDown = Ok o ∧
    classList_contains (classes (next o)) 3 ACTIVATED = false ∧
    activatableEle (next o) = None ∧ activeDefer (next o) = None ∧
    clearDefers (next o) = clearDefers sampleInstantDown ∧
    timers (next o) = otherTimers sampleInstantDown ∧
    nextTimer (next o) = nextTimer sampleInstantDown.
Proof.
  apply (release_without_smoothing 10 (eventOn 3 10) sampleInstantDown 3);
    try (by vm_compute).
  left. by vm_compute.
Defined.

(** ** Press on a free slot *)

Lemma activate_timer clock e x y st :
  let st' := activate clock e x y st in
  activeDefer st' = Some (nextTimer st) ∧
  nextTimer st' = S (nextTimer st) ∧
  timers st' !! nextTimer st =
    Some (mkTimer (AddActivatedCb e x y)
            (if isInstant (classes st) e then 0 else ADD_ACTIVATED_DEFERS) clock) ∧
  classes st' = classList_remove (classes st) e ACTIVATED.
Proof.
  cbv zeta. unfold activate.
  destruct (clearDefers st !! e) as [deferId|]; simpl;
    [destruct (Nat.eqb deferId 0); simpl|];
    rewrite lookup_insert_eq; by repeat split.
Qed.

(** [pointerDown] on a free slot while the page does not scroll. *)
Lemma pointerDown_free clock ev st :
  activatableEle st = None → scrolling st = false →
  pointerDown clock ev st =
  Ok (set_activatableEle (getActivatableTarget (classes st) ev)
        (match getActivatableTarget (classes st) ev with
         | Some el =>
             activate clock el (pointerCoord ev).1 (pointerCoord ev).2
               (withoutActiveDefer (set_cancelled false st))
         | None => withoutActiveDefer (set_cancelled false st)
         end)).
Proof.
  intros Hslot Hscroll. unfold pointerDown. rewrite Hslot, Hscroll.
  rewrite bool_decide_eq_false_2 by (by intros [? ?]). simpl.
  unfold setActivatedElement. simpl. rewrite Hslot.
  replace (sameElement (getActivatableTarget (classes st) ev) None) with false
    by (by destruct (getActivatableTarget (classes st) ev)).
  change (set_activeDefer None
            (clearTimeout (activeDefer st) (set_cancelled false st)))
    with (withoutActiveDefer (set_cancelled false st)).
  destruct (pointerCoord ev) as [x y]. unfold deactivateSelected.
  destruct (withoutActiveDefer_fields (set_cancelled false st))
    as (_ & _ & _ & Ha & _). rewrite Ha.
  change (activatableEle (set_cancelled false st)) with (activatableEle st).
  rewrite Hslot. simpl.
  by destruct (getActivatableTarget (classes st) ev).
Qed.

(** X3. In any state the engine reaches, with the slot free and the page not
    scrolling, a pointer-down on an activatable element takes the slot for
    it at once and clears the cancelled flag; the element does not carry the
    marker, a removal that was pending for it is cancelled and unregistered,
    and one timer is set to apply the marker, with delay 0 when the element
    is instant and [ADD_ACTIVATED_DEFERS] otherwise; it is the only addition
    pending. *)
Theorem press_schedules_activation d config cl inputs st clock ev el :
  run inputs (startTapClick d config cl) = Ok st →
  activatableEle st = None → scrolling st = false →
  getActivatableTarget (classes st) ev = Some el →
  ∃ st', pointerDown clock ev st = Ok st' ∧
    activatableEle st' = Some el ∧ cancelled st' = false ∧
    classList_contains (classes st') el ACTIVATED = false ∧
    clearDefers st' !! el = None ∧
    (∀ id t, timers st' !! id = Some t → callback t ≠ ClearStateCb el) ∧
    activeDefer st' = Some (nextTimer st) ∧
    timers st' !! nextTimer st =
      Some (mkTimer (AddActivatedCb el (pointerCoord ev).1 (pointerCoord ev).2)
              (if isInstant (classes st) el then 0 else ADD_ACTIVATED_DEFERS)
              clock) ∧
    (∀ e, pendingAdd st' e → e = el).
Proof.
  intros Hrun Hslot Hscroll Htarget.
  destruct (run_inv inputs _ (Inv_start d config cl)) as (st0 & Hrun0 & HI & _).
  rewrite Hrun in Hrun0. injection Hrun0 as <-.
  rewrite (pointerDown_free clock ev st Hslot Hscroll), Htarget.
  eexists. split; [reflexivity|].
  set (x := (pointerCoord ev).1). set (y := (pointerCoord ev).2).
  destruct (clear_activeDefer (set_cancelled false st) HI) as [Hreg Hno].
  fold (withoutActiveDefer (set_cancelled false st)) in Hreg, Hno.
  destruct (withoutActiveDefer_fields (set_cancelled false st))
    as (_ & Hn0 & _ & _ & _ & Hcl0 & _).
  assert (Hcan0 : cancelled (withoutActiveDefer (set_cancelled false st)) = false).
  { unfold withoutActiveDefer. simpl. by destruct (activeDefer st). }
  set (st1 := withoutActiveDefer (set_cancelled false st)) in *. clearbody st1.
  destruct (activate_inv clock el x y st1 Hreg Hno)
    as ([Hreg2 Hadd2 _ Hslot2] & (_ & Hcan & _) & _).
  destruct (activate_timer clock el x y st1) as (Hd & _ & Ht & Hcl).
  set (st2 := activate clock el x y st1) in *. clearbody st2.
  cbn [activatableEle cancelled classes clearDefers timers activeDefer
       set_activatableEle].
  simpl in Hn0, Hcl0. rewrite Hn0, Hcl0 in *.
  split; [done|]. split; [congruence|].
  split; [rewrite Hcl; apply contains_remove_same|].
  split; [by apply Hslot2|]. split.
  { intros id t Hl Hcb. pose proof (reg_entry _ _ _ Hreg2 _ _ _ Hl Hcb) as He.
    rewrite (Hslot2 el eq_refl) in He. done. }
  split; [exact Hd|]. split; [exact Ht|].
  intros e (id & t & x' & y' & Hl & Hcb).
  destruct (Hadd2 _ _ _ _ _ Hl Hcb) as [_ [= ->]]. done.
Qed.

Lemma press_schedules_activation_witness :
  ∃ st', pointerDown 60 (eventOn 1 60) sampleReleased = Ok st' ∧
    activatableEle st' = Some 1%nat ∧ cancelled st' = false ∧
    classList_contains (classes st') 1 ACTIVATED = false ∧
    clearDefers st' !! 1%nat = None ∧
    (∀ id t, timers st' !! id = Some t → callback t ≠ ClearStateCb 1) ∧
    activeDefer st' = Some (nextTimer sampleReleased) ∧
    timers st' !! nextTimer sampleReleased =
      Some (mkTimer (AddActivatedCb 1 (pointerCoord (eventOn 1 60)).1
                       (pointerCoord (eventOn 1 60)).2)
              (if isInstant (classes sampleReleased) 1 then 0
               else ADD_ACTIVATED_DEFERS)
              60) ∧
    (∀ e, pendingAdd st' e → e = 1%nat).
Proof.
  apply (press_schedules_activation sampleDocument (mkConfig ∅) sampleClasses
           [(0, TouchStart (eventOn 1 0)); (50, TouchEnd (eventOn 1 50))]);
    by vm_compute.
Defined.

(** X4. In any state the engine reaches, with the slot free and the page not
    scrolling, a pointer-down that resolves to no activatable element
    changes nothing but the cancelled flag, which it clears: no timer is set
    or cancelled and no class is touched. *)
Theorem press_on_nothing d config cl inputs st clock ev :
  run inputs (startTapClick d config cl) = Ok st →
  activatableEle st = None → scrolling st = false →
  getActivatableTarget (classes st) ev = None →
  pointerDown clock ev st = Ok (set_cancelled false st).
Proof.
  intros Hrun Hslot Hscroll Htarget.
  destruct (run_inv inputs _ (Inv_start d config cl)) as (st0 & Hrun0 & HI & _).
  rewrite Hrun in Hrun0. injection Hrun0 as <-.
  rewrite (pointerDown_free clock ev st Hslot Hscroll), Htarget.
  assert (Hd : activeDefer st = None).
  { destruct (activeDefer st) as [id|] eqn:Hid; [|done].
    destruct (inv_defer _ _ _ _ _ HI id Hid) as (t & e & x & y & Hl & Hcb).
    destruct (inv_add _ _ _ _ _ HI _ _ _ _ _ Hl Hcb) as [_ He]. congruence. }
  unfold withoutActiveDefer. destruct st. simpl in *. by subst.
Qed.

Lemma press_on_nothing_witness :
  pointerDown 60 (eventOn 0 60) sampleReleased
  = Ok (set_cancelled false sampleReleased).
Proof.
  apply (press_on_nothing sampleDocument (mkConfig ∅) sampleClasses
           [(0, TouchStart (eventOn 1 0)); (50, TouchEnd (eventOn 1 50))]);
    by vm_compute.
Defined.

(** ** Scrolling *)

(** [cancelActive] in full: what it leaves of the timers, the slot, the
    flags and the classes. *)
Lemma cancelActive_fields clock st :
  let st' := cancelActive clock st in
  timers st' = otherTimers st ∧ nextTimer st' = nextTimer st ∧
  clearDefers st' = clearDefers st ∧ activatableEle st' = None ∧
  activeDefer st' = None ∧ scrolling st' = scrolling st ∧
  cancelled st' = true ∧
  classes st' = match activatableEle st with
                | Some a => classList_remove (classes st) a ACTIVATED
                | None => classes st
                end.
Proof.
  cbv zeta. unfold cancelActive. fold (withoutActiveDefer st).
  destruct (withoutActiveDefer_fields st)
    as (Ht0 & Hn0 & Hc0 & Ha0 & Hd0 & Hcl0 & _).
  assert (Hs0 : scrolling (withoutActiveDefer st) = scrolling st).
  { unfold withoutActiveDefer. by destruct (activeDefer st). }
  set (st1 := withoutActiveDefer st) in *. clearbody st1. rewrite <- Ha0.
  destruct (activatableEle st1) as [a|] eqn:Hslot.
  - destruct (removeActivated_immediate clock false st1 a Hslot eq_refl)
      as ((_ & _ & Hs & _) & Ht & Hn & Hc & _ & Hd & Hcl).
    cbn [timers nextTimer clearDefers activatableEle activeDefer scrolling
         cancelled classes set_cancelled set_activatableEle].
    rewrite Ht, Hn, Hc, Hd, Hs, Hcl. by repeat split; congruence.
  - cbn [timers nextTimer clearDefers activatableEle activeDefer scrolling
         cancelled classes set_cancelled].
    by repeat split; congruence.
Qed.

Lemma cancelActive_locked clock st :
  Locked st → Locked (cancelActive clock st) ∧
              classes (cancelActive clock st) = classes st.
Proof.
  intros (Hs & Ha & Hd & Hno).
  destruct (cancelActive_fields clock st)
    as (Ht' & _ & _ & Ha' & Hd' & Hs' & _ & Hcl').
  unfold otherTimers in Ht'. rewrite Hd in Ht'. rewrite Ha in Hcl'.
  split; [|done]. unfold Locked. rewrite Ht', Hs'. done.
Qed.

(** While the engine is locked an input other than the end of the scroll
    keeps it locked and gives the marker to no element. *)
Lemma dispatch_locked clock i st :
  Locked st → isScrollEnd i = false →
  ∃ o, dispatch clock i st = Ok o ∧ Locked (next o) ∧
       ∀ el, marked (next o) el → marked st el.
Proof.
  intros HL Hi. pose proof HL as (Hs & Ha & Hd & Hno).
  destruct i as [ev| | | |ev|ev|ev|ev|ev|id]; simpl; try done.
  - eexists. split; [reflexivity|]. unfold onBodyClick.
    by destruct (cancelled st || scrolling st).
  - eexists. split; [reflexivity|]. simpl.
    destruct (cancelActive_locked clock (set_scrolling true st)) as [HL' Hcl].
    { done. }
    split; [done|]. unfold marked. by rewrite Hcl.
  - eexists. split; [reflexivity|]. simpl.
    destruct (cancelActive_locked clock st HL) as [HL' Hcl].
    split; [done|]. unfold marked. by rewrite Hcl.
  - unfold onTouchStart, pointerDown. simpl. rewrite Hs, orb_true_r. simpl.
    eexists. split; [reflexivity|]. done.
  - unfold onTouchEnd, pointerUp. simpl. rewrite Hs.
    eexists. split; [reflexivity|]. done.
  - unfold onTouchEnd, pointerUp. simpl. rewrite Hs.
    eexists. split; [reflexivity|]. done.
  - unfold onMouseDown, pointerDown. rewrite Hs, orb_true_r.
    destruct (lastTouch st <? now ev - MOUSE_WAIT); simpl;
      (eexists; split; [reflexivity|]; done).
  - unfold onMouseUp, pointerUp. rewrite Hs.
    destruct (lastTouch st <? now ev - MOUSE_WAIT);
      (eexists; split; [reflexivity|]; done).
  - destruct (timers st !! id) as [t|] eqn:Hl;
      [|eexists; split; [reflexivity|]; done].
    destruct (setAt t + delay t <=? clock);
      [|eexists; split; [reflexivity|]; done].
    eexists. split; [reflexivity|]. simpl.
    destruct (Hno _ _ Hl) as [el ->]. simpl. split.
    + split; [done|]. split; [done|]. split; [done|]. simpl.
      by apply NoAddOn_delete.
    + intros e. unfold marked. simpl. by intros [He _]%contains_remove_inv.
Qed.

Lemma run_locked inputs : ∀ st,
  Locked st → forallb (fun ci => negb (isScrollEnd (snd ci))) inputs = true →
  ∃ st', run inputs st = Ok st' ∧ Locked st' ∧
         ∀ el, marked st' el → marked st el.
Proof.
  induction inputs as [|[clock i] rest IH]; intros st HL; simpl.
  - intros _. by exists st.
  - intros [Hi Hrest]%andb_prop. apply negb_true_iff in Hi.
    destruct (dispatch_locked clock i st HL Hi) as (o & Hd & HL' & Hm).
    rewrite Hd. simpl.
    destruct (IH (next o) HL' Hrest) as (st' & Hrun & HL'' & Hm').
    exists st'. split; [done|]. split; [done|]. auto.
Qed.

(** X5. From any state the engine reaches, the start of a scroll empties the
    slot and takes the marker off the element that held it; and until the
    scroll ends, whatever else comes in (touches, mouse events, gestures,
    timers), no handler throws, the slot stays empty, no addition of the
    marker is pending, no element gains the marker, and a click is
    suppressed. *)
Theorem scroll_locks_engine d config cl before st clock during :
  run before (startTapClick d config cl) = Ok st →
  forallb (fun ci => negb (isScrollEnd (snd ci))) during = true →
  ∃ st', run ((clock, IonScrollStart) :: during) st = Ok st' ∧
    scrolling st' = true ∧ activatableEle st' = None ∧
    (∀ el, ¬ pendingAdd st' el) ∧
    (∀ el, marked st' el → marked st el ∧ activatableEle st ≠ Some el) ∧
    onBodyClick st' = mkOutcome st' true true.
Proof.
  intros Hrun Hduring.
  destruct (run_inv before _ (Inv_start d config cl)) as (st0 & Hrun0 & HI & _).
  rewrite Hrun in Hrun0. injection Hrun0 as <-.
  simpl.
  destruct (cancelActive_fields clock (set_scrolling true st))
    as (Ht & _ & _ & Ha & Hd & Hs & _ & Hcl).
  destruct (clear_activeDefer (set_scrolling true st) HI) as [_ Hno].
  assert (HL : Locked (cancelActive clock (set_scrolling true st))).
  { unfold Locked. rewrite Hs, Ha, Hd, Ht. repeat split; try done.
    destruct (withoutActiveDefer_fields (set_scrolling true st)) as (<- & _).
    exact Hno. }
  destruct (run_locked during _ HL Hduring) as (st' & Hrun' & HL' & Hm).
  exists st'. split; [done|]. destruct HL' as (Hs' & Ha' & Hd' & Hno').
  split; [done|]. split; [done|]. split.
  { intros el (id & t & x & y & Hl & Hcb). destruct (Hno' _ _ Hl) as [? ?].
    congruence. }
  split.
  - intros el Hel%Hm. unfold marked in Hel. rewrite Hcl in Hel. simpl in Hel.
    destruct (activatableEle st) as [a|].
    + apply contains_remove_inv in Hel as [Hel Hne]. split; [done|].
      intros [= ->]. by apply Hne.
    + done.
  - unfold onBodyClick. by rewrite Hs', orb_true_r.
Qed.

Lemma scroll_locks_engine_witness :
  ∃ st', run [(100, IonScrollStart); (150, TouchStart (eventOn 2 150));
              (200, TimerFires 1); (260, TouchEnd (eventOn 2 260))]
           sampleDown = Ok st' ∧
    scrolling st' = true ∧ activatableEle st' = None ∧
    (∀ el, ¬ pendingAdd st' el) ∧
    (∀ el, marked st' el → marked sampleDown el ∧ activatableEle sampleDown ≠ Some el) ∧
    onBodyClick st' = mkOutcome st' true true.
Proof.
  apply (scroll_locks_engine sampleDocument (mkConfig ∅) sampleClasses
           [(0, MouseDown (eventOn 1 0))] sampleDown 100
           [(150, TouchStart (eventOn 2 150)); (200, TimerFires 1);
            (260, TouchEnd (eventOn 2 260))]);
    by vm_compute.
Defined.

(** ** What the engine writes *)

Lemma Kept_refl st : Kept st st.
Proof. by split. Qed.

Lemma Kept_trans st1 st2 st3 : Kept st1 st2 → Kept st2 st3 → Kept st1 st3.
Proof.
  intros [Hc1 Hr1] [Hc2 Hr2]. split; [|auto].
  intros el c Hc. by rewrite Hc2, Hc1.
Qed.

Lemma Kept_addActivated clock el x y st : Kept st (addActivated clock el x y st).
Proof.
  split.
  - destruct (addActivated_fields clock el x y st) as (_ & _ & _ & _ & _ & _ & _ & ->).
    intros e c Hc. by apply contains_add_other.
  - pose proof (addActivated_ripple clock el x y st) as Hr. cbv zeta in Hr.
    assert (Hrem : ripplesRemoved (addActivated clock el x y st) = ripplesRemoved st).
    { unfold addActivated. simpl.
      destruct (if useRippleEffect st then getRippleEffect (doc st) el else None)
        as [r|]; [destruct (hasAddRipple r)|]; done. }
    intros [Hhead Hsub]. unfold RippleLog. rewrite Hrem.
    destruct (if useRippleEffect st then getRippleEffect (doc st) el else None)
      as [r|]; [destruct (hasAddRipple r)|]; destruct Hr as [-> ->].
    + split; [done|]. intros c Hc. apply elem_of_cons. right. by apply Hsub.
    + done.
    + done.
Qed.

Lemma removeActivated_ripples clock smooth st :
  let st' := removeActivated clock smooth st in
  activeRipple st' = activeRipple st ∧ ripplesAdded st' = ripplesAdded st ∧
  ripplesRemoved st' = match activeRipple st with
                       | Some c => c :: ripplesRemoved st
                       | None => ripplesRemoved st
                       end.
Proof.
  cbv zeta. unfold removeActivated.
  destruct (activeRipple st) eqn:Hact; simpl;
    (destruct (activatableEle st); simpl; [|by rewrite ?Hact]);
    match goal with |- context [if ?b then _ else _] => destruct b end;
    simpl; by rewrite ?Hact.
Qed.

Lemma Kept_removeActivated clock smooth st :
  Kept st (removeActivated clock smooth st).
Proof.
  split; [unfold removeActivated|].
  - intros e c Hc.
    destruct (activeRipple st); simpl;
      (destruct (activatableEle st); simpl; [|done]);
      match goal with |- context [if ?b then _ else _] => destruct b end;
      simpl; try done; by apply contains_remove_other.
  - intros [Hhead Hsub]. unfold RippleLog.
    assert (Hsub' : ∀ c, c ∈ match activeRipple st with
                              | Some c0 => c0 :: ripplesRemoved st
                              | None => ripplesRemoved st
                              end → c ∈ ripplesAdded st).
    { intros c. destruct (activeRipple st) as [c0|] eqn:Hact; [|apply Hsub].
      intros [->|Hc]%elem_of_cons; [|by apply Hsub].
      destruct (ripplesAdded st) as [|c1 older]; [done|].
      injection Hhead as ->. apply elem_of_cons. by left. }
    destruct (removeActivated_ripples clock smooth st) as (-> & -> & ->).
    by split.
Qed.

Lemma Kept_clearTimeout id st : Kept st (clearTimeout id st).
Proof. destruct id; by split. Qed.

Lemma Kept_activate clock e x y st : Kept st (activate clock e x y st).
Proof.
  unfold activate. split.
  - intros el c Hc.
    destruct (clearDefers st !! e) as [deferId|]; simpl;
      [destruct (Nat.eqb deferId 0); simpl|]; by apply contains_remove_other.
  - unfold RippleLog.
    destruct (clearDefers st !! e) as [deferId|]; simpl;
      [destruct (Nat.eqb deferId 0); simpl|]; done.
Qed.

Lemma Kept_setActivatedElement clock el ev st st' :
  setActivatedElement clock el ev st = Ok st' → Kept st st'.
Proof.
  unfold setActivatedElement.
  destruct (sameElement el (activatableEle st)).
  { intros [= <-]. apply Kept_refl. }
  assert (H1 : Kept st (set_activeDefer None (clearTimeout (activeDefer st) st))).
  { apply (Kept_trans _ (clearTimeout (activeDefer st) st));
      [apply Kept_clearTimeout|by split]. }
  set (st1 := set_activeDefer None (clearTimeout (activeDefer st) st)) in *.
  clearbody st1. destruct (pointerCoord ev) as [x y].
  destruct (deactivateSelected clock x y st1) as [st2|] eqn:Hde; [|done].
  simpl. intros [= <-].
  assert (H2 : Kept st1 st2).
  { unfold deactivateSelected in Hde.
    destruct (activatableEle st1) as [a|]; [|injection Hde as <-; apply Kept_refl].
    destruct (bool_decide _); [done|]. injection Hde as <-.
    destruct (negb _).
    - apply (Kept_trans _ (addActivated clock a x y st1));
        [apply Kept_addActivated|apply Kept_removeActivated].
    - apply Kept_removeActivated. }
  apply (Kept_trans _ _ _ H1). apply (Kept_trans _ _ _ H2).
  destruct el as [e|].
  - apply (Kept_trans _ (activate clock e x y st2));
      [apply Kept_activate|by split].
  - by split.
Qed.

Lemma Kept_cancelActive clock st : Kept st (cancelActive clock st).
Proof.
  unfold cancelActive.
  assert (H1 : Kept st (set_activeDefer None (clearTimeout (activeDefer st) st))).
  { apply (Kept_trans _ (clearTimeout (activeDefer st) st));
      [apply Kept_clearTimeout|by split]. }
  set (st1 := set_activeDefer None (clearTimeout (activeDefer st) st)) in *.
  clearbody st1. apply (Kept_trans _ _ _ H1).
  destruct (activatableEle st1).
  - apply (Kept_trans _ (removeActivated clock false st1));
      [apply Kept_removeActivated|by split].
  - by split.
Qed.

Lemma Kept_pointerDown clock ev st st' :
  pointerDown clock ev st = Ok st' → Kept st st'.
Proof.
  unfold pointerDown. destruct (_ || _); [intros [= <-]; apply Kept_refl|].
  intros H%Kept_setActivatedElement. exact H.
Qed.

Lemma Kept_pointerUp clock ev st o :
  pointerUp clock ev st = Ok o → Kept st (next o).
Proof.
  unfold pointerUp. destruct (scrolling st); [intros [= <-]; apply Kept_refl|].
  destruct (setActivatedElement clock None ev st) as [st'|] eqn:Hset; [|done].
  simpl. intros [= <-]. simpl. by apply Kept_setActivatedElement in Hset.
Qed.

Lemma Kept_dispatch clock i st o : dispatch clock i st = Ok o → Kept st (next o).
Proof.
  destruct i as [ev| | | |ev|ev|ev|ev|ev|id]; simpl.
  - intros [= <-]. unfold onBodyClick. destruct (_ || _); apply Kept_refl.
  - intros [= <-]. apply (Kept_cancelActive clock (set_scrolling true st)).
  - intros [= <-]. by split.
  - intros [= <-]. apply Kept_cancelActive.
  - unfold onTouchStart, lift.
    destruct (pointerDown clock ev (set_lastTouch (now ev) st)) as [st'|] eqn:Hd;
      [|done].
    simpl. intros [= <-]. by apply Kept_pointerDown in Hd.
  - apply (Kept_pointerUp clock ev (set_lastTouch (now ev) st)).
  - apply (Kept_pointerUp clock ev (set_lastTouch (now ev) st)).
  - unfold onMouseDown, lift. destruct (lastTouch st <? now ev - MOUSE_WAIT).
    + destruct (pointerDown clock ev st) as [st'|] eqn:Hd; [|done].
      simpl. intros [= <-]. by apply Kept_pointerDown in Hd.
    + simpl. intros [= <-]. apply Kept_refl.
  - unfold onMouseUp. destruct (lastTouch st <? now ev - MOUSE_WAIT).
    + apply Kept_pointerUp.
    + intros [= <-]. apply Kept_refl.
  - destruct (timers st !! id) as [t|]; [|intros [= <-]; apply Kept_refl].
    destruct (setAt t + delay t <=? clock); [|intros [= <-]; apply Kept_refl].
    intros [= <-]. simpl. destruct (callback t) as [el x y|el]; simpl.
    + apply (Kept_trans _ (set_timers (delete id (timers st)) (nextTimer st) st));
        [by split|].
      apply (Kept_trans _ (addActivated clock el x y
               (set_timers (delete id (timers st)) (nextTimer st) st)));
        [apply Kept_addActivated|by split].
    + split; [|done]. intros e c Hc. simpl. by apply contains_remove_other.
Qed.

Lemma Kept_run inputs : ∀ st st', run inputs st = Ok st' → Kept st st'.
Proof.
  induction inputs as [|[clock i] rest IH]; intros st st'; simpl.
  - intros [= <-]. apply Kept_refl.
  - destruct (dispatch clock i st) as [o|] eqn:Hd; [|done]. simpl.
    intros Hrun. apply (Kept_trans _ (next o)); [by apply (Kept_dispatch clock i)|].
    by apply IH.
Qed.

Lemma scanPath_ext cl cl' path :
  (∀ el, classList_contains cl' el ION_ACTIVATABLE
         = classList_contains cl el ION_ACTIVATABLE) →
  ∀ fuel i, scanPath cl' path i fuel = scanPath cl path i fuel.
Proof.
  intros Hsame. induction fuel as [|fuel IH]; intros i; simpl; [done|].
  destruct (Z.of_nat i <? Z.of_nat (length path) - 2); [|done].
  destruct (path !! i) as [[el|]|]; rewrite ?Hsame, ?IH; done.
Qed.

Lemma getActivatableTarget_ext cl cl' ev :
  (∀ el, classList_contains cl' el ION_ACTIVATABLE
         = classList_contains cl el ION_ACTIVATABLE) →
  getActivatableTarget cl' ev = getActivatableTarget cl ev.
Proof.
  intros Hsame. unfold getActivatableTarget.
  destruct (composedPath ev) as [path|]; [by apply scanPath_ext|].
  unfold closest. induction (ancestors ev) as [|e chain IH]; simpl; [done|].
  by rewrite Hsame, IH.
Qed.

(** X6. The engine writes no class but "activated": after any run every
    other class is on exactly the elements that carried it at the start.
    So an event resolves to the same target, and an element is instant or
    not, as on the page the engine started on. *)
Theorem only_activated_is_written d config cl inputs :
  ∃ st, run inputs (startTapClick d config cl) = Ok st ∧
    (∀ el c, c ≠ ACTIVATED →
       classList_contains (classes st) el c = classList_contains cl el c) ∧
    (∀ ev, getActivatableTarget (classes st) ev = getActivatableTarget cl ev) ∧
    (∀ el, isInstant (classes st) el = isInstant cl el).
Proof.
  destruct (run_inv inputs _ (Inv_start d config cl)) as (st & Hrun & _).
  exists st. split; [done|].
  destruct (Kept_run _ _ _ Hrun) as [Hkept _]. simpl in Hkept.
  split; [exact Hkept|]. split.
  - intros ev. apply getActivatableTarget_ext. intros el. by apply Hkept.
  - intros el. by apply Hkept.
Qed.

(** X7. Ripples are kept in order: after any run the ripple held in
    [activeRipple] is the last one started, if any was started at all (it is
    never reset), and every removal that was asked for is the removal of a
    ripple the engine started. *)
Theorem ripples_in_order d config cl inputs :
  ∃ st, run inputs (startTapClick d config cl) = Ok st ∧
    activeRipple st = head (ripplesAdded st) ∧
    ∀ c, c ∈ ripplesRemoved st → c ∈ ripplesAdded st.
Proof.
  destruct (run_inv inputs _ (Inv_start d config cl)) as (st & Hrun & _).
  exists st. split; [done|].
  destruct (Kept_run _ _ _ Hrun) as [_ Hlog]. apply Hlog.
  split; simpl; [done|]. by intros c Hc%elem_of_nil.
Qed.

(** ** Timers and the registry *)

(** X8. No timer is lost: after any run every pending timer is either the
    addition [activeDefer] names, which is for the element in the slot, or a
    removal registered in [clearDefers] under its element; every entry of
    [clearDefers] names a pending removal for its element, two elements never
    share a handle, and [activeDefer], when set, names a pending addition. *)
Theorem timers_accounted_for d config cl inputs :
  ∃ st, run inputs (startTapClick d config cl) = Ok st ∧
    (∀ id t, timers st !! id = Some t →
       (∃ el x y, callback t = AddActivatedCb el x y ∧
                  activeDefer st = Some id ∧ activatableEle st = Some el) ∨
       (∃ el, callback t = ClearStateCb el ∧ clearDefers st !! el = Some id)) ∧
    (∀ el id, clearDefers st !! el = Some id →
       ∃ t, timers st !! id = Some t ∧ callback t = ClearStateCb el) ∧
    (∀ e1 e2 id, clearDefers st !! e1 = Some id →
                 clearDefers st !! e2 = Some id → e1 = e2) ∧
    (∀ id, activeDefer st = Some id →
       ∃ t el x y, timers st !! id = Some t ∧
                   callback t = AddActivatedCb el x y)  ∧
    (∀ id t, timers st !! id = Some t → (0 < id < nextTimer st)%nat).
Proof.
  destruct (run_inv inputs _ (Inv_start d config cl))
    as (st & Hrun & [Hreg Hadd Hdefer Hslot] & _).
  exists st. split; [done|]. split; [|split; [|split; [|split]]].
  - intros id t Hl. destruct (callback t) as [el x y|el] eqn:Hcb.
    + left. exists el, x, y. split; [done|]. by apply (Hadd _ _ _ _ _ Hl Hcb).
    + right. exists el. split; [done|]. by apply (reg_entry _ _ _ Hreg _ _ _ Hl).
  - apply (reg_timer _ _ _ Hreg).
  - intros e1 e2 id H1 H2.
    destruct (reg_timer _ _ _ Hreg _ _ H1) as (t1 & Ht1 & Hc1).
    destruct (reg_timer _ _ _ Hreg _ _ H2) as (t2 & Ht2 & Hc2).
    congruence.
  - exact Hdefer.
  - apply (reg_handles _ _ _ Hreg).
Qed.

(** ** Mouse events and touches *)

(** X9. After a touch-end (or touch-cancel) stamped [t], and whatever inputs
    other than touches come in between, a mouse-up or a mouse-down stamped
    at most [MOUSE_WAIT] after [t] is dropped: it leaves the state as it is
    and does nothing to the event.  A mouse-up stamped later is handed to
    [pointerUp]. *)
Theorem touch_end_mutes_mouse clock1 ev1 st o1 between st2 :
  onTouchEnd clock1 ev1 st = Ok o1 →
  forallb (fun ci => negb (isTouch (snd ci))) between = true →
  run between (next o1) = Ok st2 →
  lastTouch st2 = now ev1 ∧
  ∀ clock2 ev2,
    (now ev2 - now ev1 <= MOUSE_WAIT →
       onMouseUp clock2 ev2 st2 = Ok (unhandled st2) ∧
       onMouseDown clock2 ev2 st2 = Ok st2) ∧
    (MOUSE_WAIT < now ev2 - now ev1 →
       onMouseUp clock2 ev2 st2 = pointerUp clock2 ev2 st2).
Proof.
  unfold onTouchEnd. intros Hlt%pointerUp_lastTouch Hnone Hrun.
  simpl in Hlt. apply (run_lastTouch _ _ _ Hnone) in Hrun. rewrite Hlt in Hrun.
  split; [done|]. intros clock2 ev2. unfold onMouseUp, onMouseDown.
  rewrite Hrun. split; intros Ht.
  - destruct (Z.ltb_spec (now ev1) (now ev2 - MOUSE_WAIT)); [lia|]. done.
  - destruct (Z.ltb_spec (now ev1) (now ev2 - MOUSE_WAIT)); [done|lia].
Qed.

Lemma touch_end_mutes_mouse_witness :
  lastTouch sampleReleased = 50 ∧
  onMouseUp 60 (eventOn 1 60) sampleReleased = Ok (unhandled sampleReleased) ∧
  onMouseUp 3000 (eventOn 1 3000) sampleReleased
  = pointerUp 3000 (eventOn 1 3000) sampleReleased.
Proof.
  destruct (touch_end_mutes_mouse 50 (eventOn 1 50)
              (stateAfter [(0, TouchStart (eventOn 1 0))] sampleStart)
              (mkOutcome sampleReleased false false) [] sampleReleased)
    as [Hlt Hmouse]; [by vm_compute..|].
  split; [exact Hlt|]. split.
  - destruct (Hmouse 60 (eventOn 1 60)) as [Hnear _].
    apply Hnear. by vm_compute.
  - destruct (Hmouse 3000 (eventOn 1 3000)) as [_ Hfar].
    apply Hfar. by vm_compute.
Defined.

(** X10. Where no touch ever comes in, no mouse event is dropped: after a run
    without touch inputs every mouse-down and mouse-up stamped 0 or later is
    handed to [pointerDown] and [pointerUp]. *)
Theorem mouse_only_never_dropped d config cl inputs st clock ev :
  forallb (fun ci => negb (isTouch (snd ci))) inputs = true →
  run inputs (startTapClick d config cl) = Ok st →
  0 <= now ev →
  onMouseDown clock ev st = pointerDown clock ev st ∧
  onMouseUp clock ev st = pointerUp clock ev st.
Proof.
  intros Hnone Hrun Hpos. apply (run_lastTouch _ _ _ Hnone) in Hrun.
  simpl in Hrun. unfold onMouseDown, onMouseUp. rewrite Hrun.
  destruct (Z.ltb_spec (- MOUSE_WAIT * 10) (now ev - MOUSE_WAIT)); [done|].
  unfold MOUSE_WAIT in *. lia.
Qed.

Lemma mouse_only_never_dropped_witness :
  onMouseDown 10 (eventOn 2 10) sampleDown = pointerDown 10 (eventOn 2 10) sampleDown ∧
  onMouseUp 10 (eventOn 2 10) sampleDown = pointerUp 10 (eventOn 2 10) sampleDown.
Proof.
  apply (mouse_only_never_dropped sampleDocument (mkConfig ∅) sampleClasses
           [(0, MouseDown (eventOn 1 0))]);
    by vm_compute.
Defined.

(** ** Cancelled taps *)

(** [pointerUp] when nothing is being activated: the state stays, the
    default action is prevented for a cancelled tap on a cancelable event. *)
Lemma pointerUp_idle clock ev st :
  scrolling st = false → activatableEle st = None → activeDefer st = None →
  pointerUp clock ev st = Ok (mkOutcome st (cancelled st && cancelable ev) false).
Proof.
  intros Hs Ha Hd. unfold pointerUp, setActivatedElement, deactivateSelected.
  rewrite Hs, Hd. simpl. destruct (pointerCoord ev) as [x y]. rewrite Ha. simpl.
  destruct st. simpl in *. by subst.
Qed.

(** X11. A tap cancelled by a gesture: when [cancelActive] has run while the
    page does not scroll, the pointer-up that follows changes nothing more
    and prevents the default action of its event exactly when the event is
    cancelable; it never stops the propagation.  The cancellation itself
    sets no timer and registers no removal. *)
Theorem pointerUp_after_cancel clock st clock' ev :
  scrolling st = false →
  pointerUp clock' ev (cancelActive clock st)
  = Ok (mkOutcome (cancelActive clock st) (cancelable ev) false) ∧
  timers (cancelActive clock st) = otherTimers st ∧
  clearDefers (cancelActive clock st) = clearDefers st.
Proof.
  intros Hs.
  destruct (cancelActive_fields clock st)
    as (Ht & _ & Hc & Ha & Hd & Hs' & Hcan & _).
  rewrite Hs in Hs'.
  rewrite (pointerUp_idle clock' ev _ Hs' Ha Hd), Hcan. done.
Qed.

Lemma pointerUp_after_cancel_witness :
  pointerUp 60 (eventOn 1 60) (cancelActive 50 sampleDown)
  = Ok (mkOutcome (cancelActive 50 sampleDown) (cancelable (eventOn 1 60)) false) ∧
  timers (cancelActive 50 sampleDown) = otherTimers sampleDown ∧
  clearDefers (cancelActive 50 sampleDown) = clearDefers sampleDown.
Proof.
  apply (pointerUp_after_cancel 50 sampleDown 60 (eventOn 1 60)).
  by vm_compute.
Defined.

(** ** Short composed paths *)

(** X12. When the event has a composed path of at most two entries, no
    target is found, whatever the classes of those entries and whatever the
    plain ancestor chain would give: the last two entries of a path are
    never looked at, and the ancestor chain is used only without a path. *)
Theorem short_path_has_no_target cl ev path :
  composedPath ev = Some path → (length path ≤ 2)%nat →
  getActivatableTarget cl ev = None.
Proof.
  intros Hpath Hlen. unfold getActivatableTarget. rewrite Hpath.
  generalize (length path) at 1. intros [|fuel]; [done|].
  cbn [scanPath].
  by destruct (Z.ltb_spec (Z.of_nat 0) (Z.of_nat (length path) - 2)); [lia|].
Qed.

Lemma short_path_has_no_target_witness :
  getActivatableTarget sampleClasses
    (mkEvent 0 None (Some [TElement 1; TElement 2]) [1%nat; 2%nat] true) = None.
Proof.
  apply (short_path_has_no_target _ _ [TElement 1; TElement 2]).
  - reflexivity.
  - simpl. lia.
Defined.

End TapClickExtra.

(** * Further properties of the accordion *)

Module AccordionExtra.
Import Accordion AccordionFacts.

(** X13. Listeners are paired: connecting inside a group [g] records [g] and
    registers one [ionChange] listener on it, and disconnecting afterwards
    removes the listener from that same group and from no other; connecting
    where no group is found records none and registers nothing, and
    disconnecting then calls nothing. *)
Theorem listener_registered_and_removed valueOf a :
  let found := match el a with
               | Some host => closestGroup host
               | None => None
               end in
  let connected := (connectedCallback valueOf a).1 in
  accordionGroupEl connected = found ∧
  (connectedCallback valueOf a).2 =
    match found with
    | Some g => [AddEventListener g "ionChange"]
    | None => []
    end ∧
  disconnectedCallback connected =
    (connected, match found with
                | Some g => [RemoveEventListener g "ionChange"]
                | None => []
                end).
Proof.
  cbv zeta. unfold connectedCallback, disconnectedCallback.
  destruct (match el a with Some host => closestGroup host | None => None end)
    as [g|]; simpl.
  - assert (Hg : accordionGroupEl (updateState valueOf (set_accordionGroupEl (Some g) a))
                 = Some g).
    { unfold updateState. simpl. by destruct (value a). }
    by rewrite Hg.
  - done.
Qed.

(** X14. [updateState] does not depend on the [expanded] it finds and doing
    it twice is doing it once: the flag it leaves is a function of the
    accordion's value, its group and the group's value alone. *)
Theorem updateState_idempotent valueOf a b :
  updateState valueOf (updateState valueOf a) = updateState valueOf a ∧
  (value a ≠ None → accordionGroupEl a ≠ None →
   updateState valueOf (set_expanded b a) = updateState valueOf a).
Proof.
  unfold updateState. split.
  - destruct (value a) as [v|] eqn:Hv, (accordionGroupEl a) as [g|] eqn:Hg;
      simpl; rewrite ?Hv, ?Hg; done.
  - intros Hv Hg. simpl.
    destruct (value a) as [v|], (accordionGroupEl a) as [g|]; done.
Qed.

Lemma updateState_idempotent_witness :
  updateState (fun _ => Single "a")
    (updateState (fun _ => Single "a") sampleConnected)
  = updateState (fun _ => Single "a") sampleConnected ∧
  updateState (fun _ => Single "a") (set_expanded true sampleConnected)
  = updateState (fun _ => Single "a") sampleConnected.
Proof.
  destruct (updateState_idempotent (fun _ => Single "a") sampleConnected true)
    as [Htwice Hany].
  split; [exact Htwice|]. apply Hany; discriminate.
Defined.

(** X15. A click asks for the opposite of what the group shows: once an
    accordion with value [v] is connected inside group [g], a click on its
    header asks [g] to collapse [v] when the group's value matches or
    contains [v], and to expand it when it does not; the click itself leaves
    the accordion as the connection left it. *)
Theorem click_requests_opposite valueOf a v g :
  value a = Some v →
  match el a with Some host => closestGroup host | None => None end = Some g →
  let connected := (connectedCallback valueOf a).1 in
  (matchesOrContains (valueOf g) v →
     toggleExpanded connected = (connected, [RequestAccordionToggle g (Some v) false])) ∧
  (¬ matchesOrContains (valueOf g) v →
     toggleExpanded connected = (connected, [RequestAccordionToggle g (Some v) true])).
Proof.
  intros Hv Hg. cbv zeta. unfold connectedCallback. rewrite Hg. simpl.
  unfold updateState. simpl. rewrite Hv. unfold toggleExpanded. simpl. rewrite Hv.
  assert (Hiff : (match valueOf g with
                  | Many l => includes l v
                  | _ => strictEquals (valueOf g) v
                  end) = true ↔ matchesOrContains (valueOf g) v).
  { destruct (valueOf g) as [| |s|l]; simpl; try (split; [done|tauto]).
    - apply String.eqb_eq.
    - apply includes_In. }
  destruct (match valueOf g with Many l => _ | _ => _ end).
  - split; [done|]. intros Hn. destruct Hn. by apply Hiff.
  - split; [|done]. intros Hm%Hiff. done.
Qed.

Lemma click_requests_opposite_witness :
  toggleExpanded (connectedCallback (fun _ => Many ["b"; "a"]) sampleAccordion).1
  = ((connectedCallback (fun _ => Many ["b"; "a"]) sampleAccordion).1,
     [RequestAccordionToggle 7 (Some "a"%string) false]).
Proof.
  destruct (click_requests_opposite (fun _ => Many ["b"; "a"]) sampleAccordion
              "a"%string 7%nat eq_refl eq_refl) as [Hin _].
  apply Hin. simpl. tauto.
Defined.

End AccordionExtra.
